(** * lvgl_to_png: the LVGL C bitmap extractor and the 1-bit indexed decoder

    A shallow embedding of [src/icons/lvgl_to_png.py]: the regular-expression
    driven extractor [parse_lvgl_c_file] and the pixel loop of
    [convert_1bit_indexed_to_png].  Python integers are [Z], a [dict] is a
    [gmap], [bytes] is a list of integers, raised exceptions are the [Raise]
    branch of [result]. *)

From Stdlib Require Import ZArith Ascii String DecimalString.
From stdpp Require Import gmap list fin_maps.

Local Open Scope Z_scope.

(** ** Exceptions *)

Inductive exn : Type :=
| ValueError (msg : string)
| IndexError (msg : string)
| OverflowError (msg : string)
| MemoryError (msg : string).

Inductive result (A : Type) : Type :=
| Ok (a : A)
| Raise (e : exn).
Arguments Ok {A} a.
Arguments Raise {A} e.

Definition rbind {A B} (m : result A) (f : A → result B) : result B :=
  match m with
  | Ok a => f a
  | Raise e => Raise e
  end.

Notation "x ←! m ; k" := (rbind m (λ x, k))
  (at level 100, m at next level, right associativity, only parsing).

(** [for x in xs: body], threading the mutated object and stopping at the
    first exception. *)
Fixpoint for_in {A S} (xs : list A) (body : A → S → result S) (s : S) : result S :=
  match xs with
  | [] => Ok s
  | x :: xs' => s' ←! body x s; for_in xs' body s'
  end.

(** [range(n)]: empty when [n <= 0]. *)
Definition range (n : Z) : list Z := seqZ 0 n.

(** ** Colors, palettes, byte strings *)

(** An RGBA tuple [(r, g, b, a)]. *)
Definition color : Type := Z * Z * Z * Z.

Definition black : color := (0, 0, 0, 255).
Definition white : color := (255, 255, 255, 255).

(** [d.get(k, dflt)] *)
Definition dict_get (d : gmap Z color) (k : Z) (dflt : color) : color :=
  default dflt (d !! k).

(** [b[i]] on a [bytes] object: a negative index counts from the end, and an
    index outside [-len, len) raises [IndexError]. *)
Definition bytes_getitem (b : list Z) (i : Z) : result Z :=
  let n := Z.of_nat (length b) in
  let j := if i <? 0 then i + n else i in
  if (j <? 0) || (n <=? j) then Raise (IndexError "index out of range")
  else match b !! Z.to_nat j with
       | Some v => Ok v
       | None => Raise (IndexError "index out of range")
       end.

(** ** The image object of the imaging library

    [Image.new('RGBA', (w, h))] is a [w] by [h] grid of transparent pixels.
    It refuses a negative size, a size that does not fit the C [int] the
    library stores it in, and a width whose row of four-byte pixels would
    pass [INT_MAX] bytes; running out of memory for a size it accepts is not
    part of the model.  [pixels[x, y] = c] stores [c], with a negative
    coordinate counted from the far edge and [IndexError] outside the
    grid. *)

Definition INT_MAX : Z := 2147483647.

(** The widest row of RGBA pixels the library allocates. *)
Definition max_width : Z := INT_MAX / 4 - 1.

(** A non-negative Python integer passed where the library takes a C
    [int]. *)
Definition c_int (v : Z) : result Z :=
  if 9223372036854775807 <? v
  then Raise (OverflowError "Python int too large to convert to C long")
  else if INT_MAX <? v
  then Raise (OverflowError "signed integer is greater than maximum")
  else Ok v.

Record image : Type := {
  im_width : Z;
  im_height : Z;
  im_rows : list (list color)
}.

Definition Image_new (w h : Z) : result image :=
  if (w <? 0) || (h <? 0) then Raise (ValueError "Width and height must be >= 0")
  else
    xsize ←! c_int w;
    ysize ←! c_int h;
    if max_width <? xsize then Raise (MemoryError "")
    else Ok {| im_width := xsize; im_height := ysize;
               im_rows := replicate (Z.to_nat ysize)
                            (replicate (Z.to_nat xsize) (0, 0, 0, 0)) |}.

(** [img.save(path, 'PNG')], as far as the image decides it: the encoder
    refuses an image without pixels.  Whether the path can be written is
    the file system's part, see [main_cli]. *)
Definition img_save (img : image) : result image :=
  if (im_width img =? 0) || (im_height img =? 0)
  then Raise (ValueError "cannot write empty image as PNG")
  else Ok img.

Definition putpixel (img : image) (x y : Z) (c : color) : result image :=
  let x' := if x <? 0 then im_width img + x else x in
  let y' := if y <? 0 then im_height img + y else y in
  if (x' <? 0) || (im_width img <=? x') || (y' <? 0) || (im_height img <=? y')
  then Raise (IndexError "image index out of range")
  else Ok {| im_width := im_width img; im_height := im_height img;
             im_rows := alter (λ row, <[Z.to_nat x' := c]> row) (Z.to_nat y') (im_rows img) |}.

Definition getpixel (img : image) (x y : Z) : option color :=
  if (x <? 0) || (y <? 0) then None
  else row ← im_rows img !! Z.to_nat y; row !! Z.to_nat x.

(** ** The descriptor returned by the extractor *)

Record bitmap_info : Type := {
  name : list ascii;
  width : Z;
  height : Z;
  color_format : list ascii;
  colors : gmap Z color;
  bitmap_data : list Z
}.

(** ** convert_1bit_indexed_to_png

    The pixel loop, up to the image that is handed to [img.save]. *)

Definition convert_1bit_indexed_to_png (info : bitmap_info) : result image :=
  let width := width info in
  let height := height info in
  let colors := colors info in
  let bitmap_data := bitmap_data info in
  img ←! Image_new width height;
  let bytes_per_row := (width + 7) / 8 in
  for_in (range height) (λ y pixels,
    for_in (range width) (λ x pixels,
      let byte_index := y * bytes_per_row + x / 8 in
      let bit_index := 7 - x mod 8 in
      if byte_index <? Z.of_nat (length bitmap_data) then
        byte_value ←! bytes_getitem bitmap_data byte_index;
        let bit_value := Z.land (Z.shiftr byte_value bit_index) 1 in
        let color := dict_get colors bit_value (0, 0, 0, 255) in
        putpixel pixels x y color
      else
        putpixel pixels x y (dict_get colors 0 (0, 0, 0, 255))) pixels) img.

(** ** Text and character classes

    Text is a list of 8-bit code points.  The classes are those of Python's
    [re] on [str] patterns, restricted to code points below 256. *)

Definition text (s : string) : list ascii := list_ascii_of_string s.

Definition code (c : ascii) : Z := Z.of_N (N_of_ascii c).

Definition between (lo hi : Z) (c : ascii) : bool :=
  (lo <=? code c) && (code c <=? hi).

Definition is_char (x : ascii) (c : ascii) : bool := Ascii.eqb x c.
Definition is_not (x : ascii) (c : ascii) : bool := negb (Ascii.eqb x c).

(** [\d] *)
Definition is_digit (c : ascii) : bool := between 48 57 c.

(** [\w] *)
Definition is_word (c : ascii) : bool :=
  between 48 57 c || between 65 90 c || between 95 95 c || between 97 122 c
  || between 170 170 c || between 178 179 c || between 181 181 c
  || between 185 186 c || between 188 190 c || between 192 214 c
  || between 216 246 c || between 248 255 c.

(** [\s] *)
Definition is_space (c : ascii) : bool :=
  between 9 13 c || between 28 32 c || between 133 133 c || between 160 160 c.

(** [[0-9a-fA-F]] *)
Definition is_hex (c : ascii) : bool :=
  between 48 57 c || between 97 102 c || between 65 70 c.

(** ** int(s) and int(s, 16)

    The extractor passes only captured runs of digits; any other string is
    rejected here with [ValueError].  Integers are unbounded, but the
    interpreter converts at most [int_max_str_digits] digits (4300, its
    default) in a base that is not a power of two, and raises [ValueError]
    for more. *)

Definition digit_of (c : ascii) : option Z :=
  if between 48 57 c then Some (code c - 48)
  else if between 97 122 c then Some (code c - 87)
  else if between 65 90 c then Some (code c - 55)
  else None.

Fixpoint int_digits (base : Z) (acc : Z) (s : list ascii) : option Z :=
  match s with
  | [] => Some acc
  | c :: s' =>
      match digit_of c with
      | Some d => if d <? base then int_digits base (base * acc + d) s' else None
      | None => None
      end
  end.

Definition int_max_str_digits : nat := 4300.

Definition power_of_two_base (base : Z) : bool :=
  (base =? 2) || (base =? 4) || (base =? 8) || (base =? 16) || (base =? 32).

(** The digits at the head of the string. *)
Fixpoint count_digits (base : Z) (s : list ascii) : nat :=
  match s with
  | [] => O
  | c :: s' =>
      match digit_of c with
      | Some d => if d <? base then S (count_digits base s') else O
      | None => O
      end
  end.

Definition limit_message (digits : nat) : string :=
  String.append
    "Exceeds the limit (4300 digits) for integer string conversion: value has "
    (String.append (NilZero.string_of_uint (Nat.to_uint digits))
       " digits; use sys.set_int_max_str_digits() to increase the limit").

Definition int_ (s : list ascii) (base : Z) : result Z :=
  if negb (power_of_two_base base)
     && (int_max_str_digits <? count_digits base s)%nat
  then Raise (ValueError (limit_message (count_digits base s)))
  else
    match s with
    | [] => Raise (ValueError "invalid literal for int()")
    | _ => match int_digits base 0 s with
           | Some v => Ok v
           | None => Raise (ValueError "invalid literal for int()")
           end
    end.

Fixpoint mapM {A B} (f : A → result B) (xs : list A) : result (list B) :=
  match xs with
  | [] => Ok []
  | x :: xs' => y ←! f x; ys ←! mapM f xs'; Ok (y :: ys)
  end.

(** [bytes(ints)]: every item must be in [range(256)]. *)
Definition bytes_ (xs : list Z) : result (list Z) :=
  if forallb (λ v, (0 <=? v) && (v <? 256)) xs then Ok xs
  else Raise (ValueError "bytes must be in range(0, 256)").

(** ** Regular expressions

    The fragment of [re] that the extractor's patterns are written in:
    single characters and classes, greedy repetition of a class, numbered
    capturing groups and concatenation.  [match_re] is a backtracking
    matcher in continuation-passing style: a repetition first takes as many
    characters as it can and gives them back one at a time while the rest of
    the pattern fails. *)

Inductive regex : Type :=
| Empty
| Chr (p : ascii → bool)
| Rep (p : ascii → bool) (lo : nat) (hi : option nat)
| Group (i : nat) (r : regex)
| Cat (r1 r2 : regex).

Definition seq_re (rs : list regex) : regex := foldr Cat Empty rs.

(** A literal string, one [Chr] per character. *)
Definition lits (s : list ascii) : regex := seq_re ((λ c, Chr (is_char c)) <$> s).
Definition lit (s : string) : regex := lits (text s).

Definition star (p : ascii → bool) : regex := Rep p 0 None.
Definition plus (p : ascii → bool) : regex := Rep p 1 None.
Definition exactly (n : nat) (p : ascii → bool) : regex := Rep p n (Some n).

Definition hi_open (hi : option nat) : bool :=
  match hi with
  | Some O => false
  | _ => true
  end.

Fixpoint rep_greedy {R} (p : ascii → bool) (lo : nat) (hi : option nat)
    (s : list ascii) (k : list ascii → option R) : option R :=
  let stop := match lo with O => k s | S _ => None end in
  match s with
  | c :: s' =>
      if p c && hi_open hi then
        match rep_greedy p (Nat.pred lo) (Nat.pred <$> hi) s' k with
        | Some r => Some r
        | None => stop
        end
      else stop
  | [] => stop
  end.

Fixpoint match_re {R} (r : regex) (s : list ascii) (caps : gmap nat (list ascii))
    (k : list ascii → gmap nat (list ascii) → option R) : option R :=
  match r with
  | Empty => k s caps
  | Chr p =>
      match s with
      | c :: s' => if p c then k s' caps else None
      | [] => None
      end
  | Rep p lo hi => rep_greedy p lo hi s (λ s', k s' caps)
  | Group i r1 =>
      match_re r1 s caps
        (λ s' caps', k s' (<[i := take (length s - length s') s]> caps'))
  | Cat r1 r2 =>
      match_re r1 s caps (λ s' caps', match_re r2 s' caps' k)
  end.

(** A match object: where it starts and ends, and what its groups hold. *)
Record rematch : Type := {
  m_start : nat;
  m_end : nat;
  m_groups : gmap nat (list ascii)
}.

(** [m.group(i)] *)
Definition group (m : rematch) (i : nat) : list ascii :=
  default [] (m_groups m !! i).

(** An anchored match at the head of [s]: its length and its groups. *)
Definition match_at (r : regex) (s : list ascii) : option (nat * gmap nat (list ascii)) :=
  match_re r s ∅ (λ s' caps, Some ((length s - length s')%nat, caps)).

(** [re.search]: the match at the leftmost position that has one. *)
Fixpoint search_from (r : regex) (s : list ascii) (pos : nat) : option rematch :=
  match match_at r s with
  | Some (n, g) => Some {| m_start := pos; m_end := (pos + n)%nat; m_groups := g |}
  | None =>
      match s with
      | [] => None
      | _ :: s' => search_from r s' (S pos)
      end
  end.

Definition re_search (r : regex) (s : list ascii) : option rematch :=
  search_from r s 0.

(** [re.finditer]: the matches from left to right, none overlapping the one
    before ([skip] characters of the last match are still to be passed). *)
Fixpoint finditer_from (r : regex) (s : list ascii) (pos skip : nat) : list rematch :=
  match skip with
  | S n =>
      match s with
      | [] => []
      | _ :: s' => finditer_from r s' (S pos) n
      end
  | O =>
      match match_at r s with
      | Some (n, g) =>
          {| m_start := pos; m_end := (pos + n)%nat; m_groups := g |} ::
          match s with
          | [] => []
          | _ :: s' => finditer_from r s' (S pos) (Nat.pred n)
          end
      | None =>
          match s with
          | [] => []
          | _ :: s' => finditer_from r s' (S pos) 0
          end
      end
  end.

Definition re_finditer (r : regex) (s : list ascii) : list rematch :=
  finditer_from r s 0 0.

(** [re.findall] for a pattern with one group: the group of every match. *)
Definition re_findall (r : regex) (s : list ascii) : list (list ascii) :=
  (λ m, group m 1) <$> re_finditer r s.

(** ** The extractor's patterns

    None of them has a dot, so [re.DOTALL] changes nothing. *)

Definition newline : ascii := ascii_of_nat 10.

(** [/\*Color of index (\d+)\*/\s*\n\s*0x(HH),\s*0x(HH),\s*0x(HH),\s*0x(HH),] *)
Definition color_pattern : regex :=
  seq_re [ lit "/*Color of index "; Group 1 (plus is_digit); lit "*/";
           star is_space; Chr (is_char newline); star is_space;
           lit "0x"; Group 2 (exactly 2 is_hex); lit ","; star is_space;
           lit "0x"; Group 3 (exactly 2 is_hex); lit ","; star is_space;
           lit "0x"; Group 4 (exactly 2 is_hex); lit ","; star is_space;
           lit "0x"; Group 5 (exactly 2 is_hex); lit "," ].

(** [(\w+)_map\[\]\s*=\s*\{([^}]+)\}] *)
Definition bitmap_pattern : regex :=
  seq_re [ Group 1 (plus is_word); lit "_map[]"; star is_space; lit "=";
           star is_space; lit "{"; Group 2 (plus (is_not "}")); lit "}" ].

(** [0x([0-9a-fA-F]{2})] *)
Definition hex_pattern : regex :=
  seq_re [ lit "0x"; Group 1 (exactly 2 is_hex) ].

(** [const lv_img_dsc_t {bitmap_name}\s*=\s*\{([^}]+)\}]: the name is a run
    of word characters, so it stands for itself in the pattern. *)
Definition desc_pattern (bitmap_name : list ascii) : regex :=
  seq_re [ lit "const lv_img_dsc_t "; lits bitmap_name; star is_space; lit "=";
           star is_space; lit "{"; Group 1 (plus (is_not "}")); lit "}" ].

(** [\.w\s*=\s*(\d+)], [\.h\s*=\s*(\d+)] and [\.cf\s*=\s*(\w+)] *)
Definition field_pattern (label : string) (p : ascii → bool) : regex :=
  seq_re [ lit label; star is_space; lit "="; star is_space; Group 1 (plus p) ].

Definition width_pattern : regex := field_pattern ".w" is_digit.
Definition height_pattern : regex := field_pattern ".h" is_digit.
Definition cf_pattern : regex := field_pattern ".cf" is_word.

(** ** parse_lvgl_c_file

    From the text of the file (the function reads it from [file_path]). *)

Definition parse_lvgl_c_file (content : list ascii) : result bitmap_info :=
  colors ←! for_in (re_finditer color_pattern content) (λ m colors,
      index ←! int_ (group m 1) 10;
      r ←! int_ (group m 2) 16;
      g ←! int_ (group m 3) 16;
      b ←! int_ (group m 4) 16;
      a ←! int_ (group m 5) 16;
      Ok (<[index := (r, g, b, a)]> colors)) ∅;
  match re_search bitmap_pattern content with
  | None => Raise (ValueError "Could not find bitmap data array")
  | Some bitmap_match =>
      let bitmap_name := group bitmap_match 1 in
      let bitmap_data_str := group bitmap_match 2 in
      let hex_values := re_findall hex_pattern bitmap_data_str in
      ints ←! mapM (λ val, int_ val 16) (drop 8 hex_values);
      bitmap_bytes ←! bytes_ ints;
      match re_search (desc_pattern bitmap_name) content with
      | None => Raise (ValueError "Could not find image descriptor")
      | Some desc_match =>
          let desc_content := group desc_match 1 in
          let width_match := re_search width_pattern desc_content in
          let height_match := re_search height_pattern desc_content in
          match width_match, height_match with
          | Some width_match, Some height_match =>
              width ←! int_ (group width_match 1) 10;
              height ←! int_ (group height_match 1) 10;
              let cf_match := re_search cf_pattern desc_content in
              let color_format :=
                match cf_match with
                | Some cf_match => group cf_match 1
                | None => text "unknown"
                end in
              Ok {| name := bitmap_name; width := width; height := height;
                    color_format := color_format; colors := colors;
                    bitmap_data := bitmap_bytes |}
          | _, _ => Raise (ValueError "Could not find image dimensions")
          end
      end
  end.

(** ** Sample input *)

Definition sample : list ascii := text
"const uint8_t layers2_map[] = {
  /*Color of index 0*/
  0xff, 0xff, 0xff, 0xff,
  /*Color of index 1*/
  0x00, 0x00, 0x00, 0xff,

  0xb0, 0x0f,
};

const lv_img_dsc_t layers2 = {
  .header.cf = LV_IMG_CF_INDEXED_1BIT,
  .header.w = 8,
  .header.h = 2,
  .data = layers2_map,
};
".

(** ** What the pixel loop computes, pixel by pixel *)

Definition bytes_per_row (w : Z) : Z := (w + 7) / 8.

Definition byte_index (w x y : Z) : Z := y * bytes_per_row w + x / 8.

Definition in_bounds (info : bitmap_info) (x y : Z) : bool :=
  byte_index (width info) x y <? Z.of_nat (length (bitmap_data info)).

Definition bit_value (byte_value x : Z) : Z :=
  Z.land (Z.shiftr byte_value (7 - x mod 8)) 1.

Definition byte_at (info : bitmap_info) (x y : Z) : Z :=
  default 0 (bitmap_data info !! Z.to_nat (byte_index (width info) x y)).

Definition pixel_color (info : bitmap_info) (x y : Z) : color :=
  if in_bounds info x y
  then dict_get (colors info) (bit_value (byte_at info x y) x) black
  else dict_get (colors info) 0 black.

(** An image of the given size whose rows all have the full width. *)
Definition wf_image (w h : Z) (img : image) : Prop :=
  im_width img = w ∧ im_height img = h ∧
  length (im_rows img) = Z.to_nat h ∧
  Forall (λ row, length row = Z.to_nat w) (im_rows img).

(** ** What a pattern matches

    [matches r s c c'] says that the whole of [s] is matched by [r], taking
    the groups from [c] to [c']: the language of the pattern, independent of
    the order in which the matcher tries things. *)

Fixpoint matches (r : regex) (s : list ascii) (c c' : gmap nat (list ascii)) : Prop :=
  match r with
  | Empty => s = [] ∧ c' = c
  | Chr p => ∃ ch, s = [ch] ∧ p ch = true ∧ c' = c
  | Rep p lo hi =>
      Forall (λ ch, p ch = true) s ∧ (lo ≤ length s)%nat ∧
      (∀ h, hi = Some h → (length s ≤ h)%nat) ∧ c' = c
  | Group i r1 => ∃ c1, matches r1 s c c1 ∧ c' = <[i := s]> c1
  | Cat r1 r2 =>
      ∃ s1 s2 c1, s = s1 ++ s2 ∧ matches r1 s1 c c1 ∧ matches r2 s2 c1 c'
  end.

(** A match of [r] starts at offset [n] of [s]. *)
Definition starts_at (r : regex) (s : list ascii) (n : nat) : Prop :=
  ∃ mid rest g, drop n s = mid ++ rest ∧ (n ≤ length s)%nat ∧ matches r mid ∅ g.

(** [r] matches somewhere in [s]. *)
Definition occurs (r : regex) (s : list ascii) : Prop :=
  ∃ pre mid post g, s = pre ++ mid ++ post ∧ matches r mid ∅ g.

(** ** The declarations the patterns stand for *)

Definition all_in (p : ascii → bool) (s : list ascii) : Prop :=
  Forall (λ ch, p ch = true) s.

(** [<name>_map[] = { <body> }] *)
Definition array_decl (name body mid : list ascii) : Prop :=
  ∃ ws1 ws2,
    mid = name ++ text "_map[]" ++ ws1 ++ text "=" ++ ws2 ++ text "{" ++ body ++ text "}" ∧
    name ≠ [] ∧ all_in is_word name ∧ all_in is_space ws1 ∧ all_in is_space ws2 ∧
    body ≠ [] ∧ all_in (is_not "}") body.

(** [<label> = <value>], as in [.w = 140] *)
Definition field (label : string) (p : ascii → bool) (value mid : list ascii) : Prop :=
  ∃ ws1 ws2,
    mid = text label ++ ws1 ++ text "=" ++ ws2 ++ value ∧
    all_in is_space ws1 ∧ all_in is_space ws2 ∧ value ≠ [] ∧ all_in p value.

(** The block contains the field somewhere. *)
Definition has_field (label : string) (p : ascii → bool) (blk : list ascii) : Prop :=
  ∃ pre value mid post, blk = pre ++ mid ++ post ∧ field label p value mid.


(** An array declaration starts at offset [n] of the text. *)
Definition array_decl_at (content : list ascii) (n : nat) : Prop :=
  ∃ name body mid rest,
    drop n content = mid ++ rest ∧ (n ≤ length content)%nat ∧ array_decl name body mid.

(** A field starts at offset [n] of the block. *)
Definition field_at (label : string) (p : ascii → bool) (blk : list ascii) (n : nat) : Prop :=
  ∃ value mid rest,
    drop n blk = mid ++ rest ∧ (n ≤ length blk)%nat ∧ field label p value mid.



(** The value of a run of decimal digits. *)
Definition decimal (digits : list ascii) : Z :=
  foldl (λ acc ch, 10 * acc + (code ch - 48)) 0 digits.

(** [v] is the integer written in the first [label = <digits>] field of the
    block: the whole run of digits, and no such field starts earlier. *)
Definition first_field_value (label : string) (blk : list ascii) (v : Z) : Prop :=
  ∃ pre ws1 ws2 digits post,
    blk = pre ++ text label ++ ws1 ++ text "=" ++ ws2 ++ digits ++ post ∧
    all_in is_space ws1 ∧ all_in is_space ws2 ∧
    digits ≠ [] ∧ all_in is_digit digits ∧
    (∀ ch, head post = Some ch → is_digit ch = false) ∧
    (∀ n', (n' < length pre)%nat → ¬ field_at label is_digit blk n') ∧
    v = decimal digits.

(** The descriptor block the extractor reads the fields from: the braces'
    content of the first descriptor named after the first array. *)
Definition descriptor_block (content blk : list ascii) : Prop :=
  ∃ bitmap_match desc_match,
    re_search bitmap_pattern content = Some bitmap_match ∧
    re_search (desc_pattern (group bitmap_match 1)) content = Some desc_match ∧
    blk = group desc_match 1.

(** ** Sample texts *)

(** An array of three bytes only, fewer than the eight the palette takes. *)
Definition tiny : list ascii := text
"const uint8_t x_map[] = { 0x01, 0x02, 0x03 };
const lv_img_dsc_t x = { .header.w = 8, .header.h = 1 };".

(** Two array declarations, and a descriptor for each: what precedes the
    first declaration, the declaration of [a], and what follows it. *)
Definition two_arrays_pre : list ascii := text "const uint8_t ".

Definition two_arrays_body : list ascii :=
  text " 0xff,0xff,0xff,0xff, 0x00,0x00,0x00,0xff, 0xaa ".

Definition two_arrays_decl : list ascii :=
  text "a" ++ text "_map[]" ++ text " " ++ text "=" ++ text " " ++ text "{" ++
  two_arrays_body ++ text "}".

Definition two_arrays_post : list ascii := text
";
const uint8_t b_map[] = { 0x00,0x00,0x00,0x00, 0x00,0x00,0x00,0x00, 0x55, 0x66 };
const lv_img_dsc_t a = { .header.w = 8, .header.h = 1 };
const lv_img_dsc_t b = { .header.w = 16, .header.h = 1 };".

Definition two_arrays : list ascii :=
  two_arrays_pre ++ two_arrays_decl ++ two_arrays_post.

(** A descriptor block without the color format, and no palette comments. *)
Definition no_cf : list ascii := text
"const uint8_t icon_map[] = { 0xff,0xff,0xff,0xff, 0x00,0x00,0x00,0xff, 0xb0 };
const lv_img_dsc_t icon = { .header.w = 0140, .header.h = 68, .data = icon_map };".

(** A descriptor block without the height. *)
Definition no_height : list ascii := text
"const uint8_t icon_map[] = { 0xff,0xff,0xff,0xff, 0x00,0x00,0x00,0xff, 0xb0 };
const lv_img_dsc_t icon = { .header.w = 8, .data = icon_map };".

(** A descriptor but no array. *)
Definition no_array : list ascii := text
"const lv_img_dsc_t icon = { .header.w = 8, .header.h = 1 };".

(** What the extractor returns for [tiny] and for [no_cf]. *)
Definition tiny_info : bitmap_info :=
  {| name := text "x"; width := 8; height := 1; color_format := text "unknown";
     colors := ∅; bitmap_data := [] |}.

Definition no_cf_info : bitmap_info :=
  {| name := text "icon"; width := 140; height := 68; color_format := text "unknown";
     colors := ∅; bitmap_data := [176] |}.

Definition no_cf_block : list ascii :=
  text " .header.w = 0140, .header.h = 68, .data = icon_map ".

Definition no_height_block : list ascii :=
  text " .header.w = 8, .data = icon_map ".

Definition two_arrays_info : bitmap_info :=
  {| name := text "a"; width := 8; height := 1; color_format := text "unknown";
     colors := ∅; bitmap_data := [170] |}.

(** ** Sample descriptors *)

(** One row of eight pixels packed in the byte [0xB0], white for 0 and
    black for 1. *)
Definition bit_order_info : bitmap_info :=
  {| name := text "row"; width := 8; height := 1;
     color_format := text "LV_IMG_CF_INDEXED_1BIT";
     colors := <[1 := black]> (<[0 := white]> ∅);
     bitmap_data := [176] |}.

(** A 10 by 2 bitmap (two bytes per row) whose last byte is missing. *)
Definition short_info : bitmap_info :=
  {| name := text "short"; width := 10; height := 2;
     color_format := text "LV_IMG_CF_INDEXED_1BIT";
     colors := <[1 := black]> (<[0 := white]> ∅);
     bitmap_data := [255; 255; 255] |}.

(** The same with all four bytes. *)
Definition full_info : bitmap_info :=
  {| name := text "full"; width := 10; height := 2;
     color_format := text "unknown";
     colors := <[1 := black]> (<[0 := white]> ∅);
     bitmap_data := [255; 255; 255; 255] |}.

(** ** More of what the patterns stand for *)

(** [const lv_img_dsc_t <ident> = { <blk> }] *)
Definition desc_decl (ident blk mid : list ascii) : Prop :=
  ∃ ws1 ws2,
    mid = text "const lv_img_dsc_t " ++ ident ++ ws1 ++ text "=" ++ ws2 ++ text "{" ++
          blk ++ text "}" ∧
    all_in is_space ws1 ∧ all_in is_space ws2 ∧ blk ≠ [] ∧ all_in (is_not "}") blk.

(** A descriptor declaration for [ident] starts at offset [n] of the text. *)
Definition desc_decl_at (ident content : list ascii) (n : nat) : Prop :=
  ∃ blk mid rest,
    drop n content = mid ++ rest ∧ (n ≤ length content)%nat ∧ desc_decl ident blk mid.

Definition has_desc_decl (ident content : list ascii) : Prop :=
  ∃ pre blk mid post, content = pre ++ mid ++ post ∧ desc_decl ident blk mid.

(** [v] is what the first [label = <run of p>] field of the block holds: the
    whole run, and no such field starts earlier. *)
Definition first_field_run (label : string) (p : ascii → bool)
    (blk v : list ascii) : Prop :=
  ∃ pre ws1 ws2 post,
    blk = pre ++ text label ++ ws1 ++ text "=" ++ ws2 ++ v ++ post ∧
    all_in is_space ws1 ∧ all_in is_space ws2 ∧ v ≠ [] ∧ all_in p v ∧
    (∀ ch, head post = Some ch → p ch = false) ∧
    (∀ n', (n' < length pre)%nat → ¬ field_at label p blk n').

(** The value of a run of hexadecimal digits. *)
Definition hex_val (s : list ascii) : Z :=
  foldl (λ acc ch, 16 * acc + default 0 (digit_of ch)) 0 s.

(** The palette entry a match of the palette pattern stands for. *)
Definition entry_of (m : rematch) : Z * color :=
  (decimal (group m 1),
   (hex_val (group m 2), hex_val (group m 3), hex_val (group m 4), hex_val (group m 5))).

Definition palette_entries (content : list ascii) : list (Z * color) :=
  entry_of <$> re_finditer color_pattern content.

(** A descriptor as the extractor can return it. *)
Definition wf_info (info : bitmap_info) : Prop :=
  name info ≠ [] ∧ all_in is_word (name info) ∧
  0 ≤ width info ∧ 0 ≤ height info ∧
  color_format info ≠ [] ∧ all_in is_word (color_format info) ∧
  Forall (λ v, 0 ≤ v < 256) (bitmap_data info) ∧
  map_Forall (λ (k : Z) (c : color),
      0 ≤ k ∧
      match c with
      | (r, g, b, a) => 0 ≤ r < 256 ∧ 0 ≤ g < 256 ∧ 0 ≤ b < 256 ∧ 0 ≤ a < 256
      end) (colors info).

(** ** Byte lists as the converter's output writes them *)

Definition hex_digit (d : Z) : ascii :=
  nth (Z.to_nat d) (text "0123456789abcdef") "0"%char.

(** A byte as two hex digits, and as the literal [0xHH]. *)
Definition hex2 (v : Z) : list ascii := [hex_digit (v / 16); hex_digit (v mod 16)].

Definition hex_literal (v : Z) : list ascii := text "0x" ++ hex2 v.

(** A byte list as C source: each byte as a literal, followed by whatever
    separates it from the next (commas, white space, comments). *)
Definition render_items (items : list (Z * list ascii)) : list ascii :=
  concat ((λ it, hex_literal it.1 ++ it.2) <$> items).

(** The text has no [0x] in it. *)
Fixpoint no_0x (s : list ascii) : bool :=
  match s with
  | [] => true
  | c :: s' =>
      negb (Ascii.eqb c "0" &&
            match s' with
            | d :: _ => Ascii.eqb d "x"
            | [] => false
            end)
      && no_0x s'
  end.

(** What a C array body may hold between its bytes. *)
Definition separator (s : list ascii) : Prop := no_0x s = true.

(** The descriptor with another packed stream. *)
Definition with_data (info : bitmap_info) (data : list Z) : bitmap_info :=
  {| name := name info; width := width info; height := height info;
     color_format := color_format info; colors := colors info;
     bitmap_data := data |}.

(** ** The command line: os.path.basename, os.path.splitext and main

    Paths are POSIX paths.  The file system is what [open] can read, as a
    partial function from paths to texts; [can_save] says whether
    [img.save] can write to a path, and [can_print] whether the console
    takes what the command prints there. *)

(** [s.rfind(c)]: the index of the last [c], or [-1]. *)
Fixpoint rfind_from (c : ascii) (s : list ascii) (pos last : Z) : Z :=
  match s with
  | [] => last
  | x :: s' => rfind_from c s' (pos + 1) (if Ascii.eqb x c then pos else last)
  end.

Definition rfind (c : ascii) (s : list ascii) : Z := rfind_from c s 0 (-1).

(** [p[i:j]] and [p[i:]] for [0 <= i <= j]. *)
Definition str_slice (p : list ascii) (i j : Z) : list ascii :=
  take (Z.to_nat (j - i)) (drop (Z.to_nat i) p).

Definition str_from (p : list ascii) (i : Z) : list ascii := drop (Z.to_nat i) p.

Fixpoint str_eqb (a b : list ascii) : bool :=
  match a, b with
  | [], [] => true
  | x :: a', y :: b' => Ascii.eqb x y && str_eqb a' b'
  | _, _ => false
  end.

Definition basename (p : list ascii) : list ascii :=
  let i := rfind "/" p + 1 in
  str_from p i.

(** The [while] loop of [_splitext], over the values [filenameIndex] takes. *)
Fixpoint splitext_scan (p : list ascii) (dotIndex : Z) (indices : list Z)
    : option (list ascii * list ascii) :=
  match indices with
  | [] => None
  | filenameIndex :: rest =>
      if negb (str_eqb (str_slice p filenameIndex (filenameIndex + 1)) (text "."))
      then Some (str_slice p 0 dotIndex, str_from p dotIndex)
      else splitext_scan p dotIndex rest
  end.

Definition splitext (p : list ascii) : list ascii * list ascii :=
  let sepIndex := rfind "/" p in
  let dotIndex := rfind "." p in
  if sepIndex <? dotIndex then
    match splitext_scan p dotIndex (seqZ (sepIndex + 1) (dotIndex - (sepIndex + 1))) with
    | Some r => r
    | None => (p, [])
    end
  else (p, []).

(** The output path [main] derives from the input path. *)
Definition default_output_path (input_file : list ascii) : list ascii :=
  let base_name := fst (splitext (basename input_file)) in
  base_name ++ text ".png".

Record arguments : Type := {
  input_file : list ascii;
  output : option (list ascii)
}.

(** What the command prints: the missing-file message, the [Parsing]
    line, the four lines that report a conversion, and the error message. *)
Inductive console_lines : Type :=
| Missing_file_lines
| Parsing_lines
| Converted_lines
| Error_lines.

(** The file the command has written, if any, and its exit status.  An
    exception the command does not catch ends it with status 1 as well. *)
Record cli_outcome : Type := {
  saved : option (list ascii * image);
  status : Z
}.

Definition main_cli (fs : list ascii → option (list ascii))
    (can_save : list ascii → bool) (can_print : console_lines → bool)
    (args : arguments) : cli_outcome :=
  match fs (input_file args) with
  | None => {| saved := None; status := 1 |}
  | Some content =>
      if negb (can_print Parsing_lines) then {| saved := None; status := 1 |}
      else
        match parse_lvgl_c_file content with
        | Raise _ => {| saved := None; status := 1 |}
        | Ok bitmap_info =>
            let output_path :=
              match output args with
              | Some (c :: o) => c :: o
              | _ => default_output_path (input_file args)
              end in
            match (img ←! convert_1bit_indexed_to_png bitmap_info; img_save img) with
            | Raise _ => {| saved := None; status := 1 |}
            | Ok img =>
                if can_save output_path
                then {| saved := Some (output_path, img);
                        status := if can_print Converted_lines then 0 else 1 |}
                else {| saved := None; status := 1 |}
            end
        end
  end.

(** A palette that gives index 0 twice. *)
Definition twice_index_0 : list ascii := text
"const uint8_t icon_map[] = {
  /*Color of index 0*/
  0x11, 0x22, 0x33, 0xff,
  /*Color of index 0*/
  0xaa, 0xbb, 0xcc, 0xff,
  0xb0
};
const lv_img_dsc_t icon = { .header.w = 8, .header.h = 1 };".

Definition twice_index_0_info : bitmap_info :=
  {| name := text "icon"; width := 8; height := 1; color_format := text "unknown";
     colors := <[0 := (170, 187, 204, 255)]> ∅; bitmap_data := [176] |}.

(** An array, and a descriptor named after something else. *)
Definition no_descriptor : list ascii := text
"const uint8_t icon_map[] = { 0xff,0xff,0xff,0xff, 0x00,0x00,0x00,0xff, 0xb0 };
const lv_img_dsc_t other = { .header.w = 8, .header.h = 1 };".

(** A descriptor block with a color format. *)
Definition with_cf : list ascii := text
"const uint8_t icon_map[] = { 0xff,0xff,0xff,0xff, 0x00,0x00,0x00,0xff, 0xb0 };
const lv_img_dsc_t icon = { .header.cf = LV_IMG_CF_INDEXED_1BIT, .header.w = 8, .header.h = 1 };".

Definition with_cf_block : list ascii :=
  text " .header.cf = LV_IMG_CF_INDEXED_1BIT, .header.w = 8, .header.h = 1 ".

Definition with_cf_info : bitmap_info :=
  {| name := text "icon"; width := 8; height := 1;
     color_format := text "LV_IMG_CF_INDEXED_1BIT";
     colors := ∅; bitmap_data := [176] |}.

(** The array body of [sample], byte by byte. *)
Definition sample_lead : list ascii := [newline] ++ text "  /*Color of index 0*/" ++ [newline] ++ text "  ".

Definition sample_items : list (Z * list ascii) :=
  [ (255, text ", "); (255, text ", "); (255, text ", ");
    (255, text "," ++ [newline] ++ text "  /*Color of index 1*/" ++ [newline] ++ text "  ");
    (0, text ", "); (0, text ", "); (0, text ", ");
    (255, text "," ++ [newline] ++ [newline] ++ text "  ");
    (176, text ", "); (15, text "," ++ [newline]) ].

(** ** The digit limit, on the text *)

(** A palette entry whose index is written [idx]. *)
Definition palette_entry_with (idx mid : list ascii) : Prop :=
  ∃ r g b a ws1 ws2 ws3 ws4 ws5,
    mid = text "/*Color of index " ++ idx ++ text "*/" ++ ws1 ++ [newline] ++ ws2 ++
          text "0x" ++ r ++ text "," ++ ws3 ++ text "0x" ++ g ++ text "," ++ ws4 ++
          text "0x" ++ b ++ text "," ++ ws5 ++ text "0x" ++ a ++ text "," ∧
    idx ≠ [] ∧ all_in is_digit idx ∧
    all_in is_space ws1 ∧ all_in is_space ws2 ∧ all_in is_space ws3 ∧
    all_in is_space ws4 ∧ all_in is_space ws5 ∧
    length r = 2%nat ∧ all_in is_hex r ∧ length g = 2%nat ∧ all_in is_hex g ∧
    length b = 2%nat ∧ all_in is_hex b ∧ length a = 2%nat ∧ all_in is_hex a.

(** No palette entry of the text has an index of more digits than [int]
    converts. *)
Definition palette_indices_within_limit (content : list ascii) : Prop :=
  ∀ pre idx mid post,
    content = pre ++ mid ++ post → palette_entry_with idx mid →
    (length idx ≤ int_max_str_digits)%nat.

(** The first [label = <digits>] field of the block, if there is one, has
    no more digits than [int] converts. *)
Definition field_within_limit (label : string) (blk : list ascii) : Prop :=
  ∀ digits, first_field_run label is_digit blk digits →
    (length digits ≤ int_max_str_digits)%nat.

(** The body of the palette loop of [parse_lvgl_c_file], and the loop. *)
Definition palette_step (m : rematch) (colors : gmap Z color) : result (gmap Z color) :=
  index ←! int_ (group m 1) 10;
  r ←! int_ (group m 2) 16;
  g ←! int_ (group m 3) 16;
  b ←! int_ (group m 4) 16;
  a ←! int_ (group m 5) 16;
  Ok (<[index := (r, g, b, a)]> colors).

Definition palette_scan (content : list ascii) : result (gmap Z color) :=
  for_in (re_finditer color_pattern content) palette_step ∅.

(** ** Texts and descriptors past the limits *)


(** A descriptor block without [.cf] whose width has 4301 digits. *)
Definition long_width : list ascii :=
  text "const uint8_t icon_map[] = { 0xff,0xff,0xff,0xff, 0x00,0x00,0x00,0xff, 0xb0 };" ++
  [newline] ++ text "const lv_img_dsc_t icon = { .header.w = " ++
  replicate 4301 "1"%char ++ text ", .header.h = 1 };".

Definition long_width_block : list ascii :=
  text " .header.w = " ++ replicate 4301 "1"%char ++ text ", .header.h = 1 ".


(** A width of 2^32, as [.w = 4294967296] gives it. *)
Definition huge_info : bitmap_info :=
  {| name := text "huge"; width := 4294967296; height := 1;
     color_format := text "unknown";
     colors := <[1 := black]> (<[0 := white]> ∅);
     bitmap_data := [176] |}.

(** * Properties *)

(** Decide the integer comparisons of the goal that arithmetic settles. *)
Ltac zcmp :=
  repeat match goal with
  | |- context [?a <? ?b] =>
      (rewrite (proj2 (Z.ltb_lt a b)) by lia) ||
      (rewrite (proj2 (Z.ltb_ge a b)) by lia)
  | |- context [?a <=? ?b] =>
      (rewrite (proj2 (Z.leb_le a b)) by lia) ||
      (rewrite (proj2 (Z.leb_gt a b)) by lia)
  end.

(** ** Loops *)

Lemma for_in_invariant {A S} (I : list A → S → Prop)
    (body : A → S → result S) (xs : list A) (s0 : S) :
  I [] s0 →
  (∀ done x rest s, xs = done ++ x :: rest → I done s →
     ∃ s', body x s = Ok s' ∧ I (done ++ [x]) s') →
  ∃ s', for_in xs body s0 = Ok s' ∧ I xs s'.
Proof.
  intros H0 Hstep.
  assert (Hgen : ∀ rest done s, xs = done ++ rest → I done s →
            ∃ s', for_in rest body s = Ok s' ∧ I xs s').
  { induction rest as [|x rest IH]; intros done s Hxs Hd.
    - rewrite app_nil_r in Hxs. subst done. by exists s.
    - destruct (Hstep done x rest s Hxs Hd) as (s1 & Hb & Hi).
      cbn. rewrite Hb. cbn. apply (IH (done ++ [x])); [|done].
      by rewrite <- app_assoc. }
  by apply (Hgen xs []).
Qed.

Lemma elem_of_range (n x : Z) : x ∈ range n ↔ 0 ≤ x < n.
Proof. unfold range. rewrite elem_of_seqZ. lia. Qed.

(** ** The image object *)

Lemma c_int_ok (v : Z) : v ≤ INT_MAX → c_int v = Ok v.
Proof. unfold c_int, INT_MAX. intros Hv. zcmp. done. Qed.

Lemma Image_new_ok (w h : Z) :
  0 ≤ w ≤ max_width → 0 ≤ h ≤ INT_MAX →
  ∃ img, Image_new w h = Ok img ∧ wf_image w h img.
Proof.
  intros Hw Hh. unfold Image_new. zcmp. cbn [orb].
  assert (max_width ≤ INT_MAX) by (vm_compute; congruence).
  rewrite !c_int_ok by lia. cbn [rbind]. zcmp. eexists. split; [done|].
  repeat split; cbn.
  - by rewrite length_replicate.
  - apply Forall_replicate. by rewrite length_replicate.
Qed.

Lemma img_save_ok (w h : Z) (img : image) :
  wf_image w h img → 0 < w → 0 < h → img_save img = Ok img.
Proof.
  intros (Hiw & Hih & _) Hw Hh. unfold img_save. rewrite Hiw, Hih.
  destruct (Z.eqb_spec w 0); [lia|]. destruct (Z.eqb_spec h 0); [lia|]. done.
Qed.

Lemma putpixel_ok (w h : Z) (img : image) (x y : Z) (c : color) :
  wf_image w h img → 0 ≤ x < w → 0 ≤ y < h →
  ∃ img', putpixel img x y c = Ok img' ∧ wf_image w h img' ∧
    ∀ x' y', getpixel img' x' y' =
      if decide (x' = x ∧ y' = y) then Some c else getpixel img x' y'.
Proof.
  intros (Hw & Hh & Hlen & Hrows) Hx Hy. unfold putpixel.
  rewrite Hw, Hh. zcmp. cbn. zcmp. cbn. eexists. split; [done|]. split.
  - repeat split; cbn; [by rewrite length_alter|].
    apply Forall_alter; [done|]. intros row Hr.
    rewrite length_insert. eapply Forall_lookup in Hrows; eauto.
  - intros x' y'. unfold getpixel. cbn.
    destruct (x' <? 0) eqn:F1; cbn.
    { apply Z.ltb_lt in F1. case_decide; [lia|done]. }
    destruct (y' <? 0) eqn:F2; cbn.
    { apply Z.ltb_lt in F2. case_decide; [lia|done]. }
    apply Z.ltb_ge in F1, F2.
    destruct (decide (y' = y)) as [->|Hne].
    + rewrite list_lookup_alter_eq.
      destruct (im_rows img !! Z.to_nat y) as [row|] eqn:Er.
      2:{ apply lookup_ge_None in Er. lia. }
      cbn. assert (length row = Z.to_nat w) as Hrl.
      { eapply Forall_lookup in Hrows; eauto. }
      destruct (decide (x' = x)) as [->|Hnx].
      * rewrite list_lookup_insert_eq by lia. by rewrite decide_True.
      * rewrite list_lookup_insert_ne by lia. rewrite decide_False by tauto. done.
    + rewrite list_lookup_alter_ne by lia. rewrite decide_False by tauto. done.
Qed.

(** ** The pixel loop *)

Lemma bytes_getitem_ok (b : list Z) (i : Z) :
  0 ≤ i < Z.of_nat (length b) →
  bytes_getitem b i = Ok (default 0 (b !! Z.to_nat i)).
Proof.
  intros Hi. unfold bytes_getitem. zcmp. cbn. zcmp. cbn.
  destruct (b !! Z.to_nat i) eqn:E; [done|].
  apply lookup_ge_None in E. lia.
Qed.

Lemma byte_index_nonneg (w x y : Z) : 0 ≤ w → 0 ≤ x → 0 ≤ y → 0 ≤ byte_index w x y.
Proof.
  intros Hw Hx Hy. unfold byte_index, bytes_per_row.
  assert (0 ≤ (w + 7) / 8) by (apply Z.div_pos; lia).
  assert (0 ≤ x / 8) by (apply Z.div_pos; lia).
  nia.
Qed.

(** One turn of the inner loop stores [pixel_color] and raises nothing. *)
Lemma pixel_step (info : bitmap_info) (pixels : image) (x y : Z) :
  0 ≤ width info → 0 ≤ x → 0 ≤ y →
  (let byte_index := y * ((width info + 7) / 8) + x / 8 in
   let bit_index := 7 - x mod 8 in
   if byte_index <? Z.of_nat (length (bitmap_data info)) then
     byte_value ←! bytes_getitem (bitmap_data info) byte_index;
     let bit_value := Z.land (Z.shiftr byte_value bit_index) 1 in
     let color := dict_get (colors info) bit_value (0, 0, 0, 255) in
     putpixel pixels x y color
   else putpixel pixels x y (dict_get (colors info) 0 (0, 0, 0, 255)))
  = putpixel pixels x y (pixel_color info x y).
Proof.
  intros Hw Hx Hy. cbv zeta. unfold pixel_color, in_bounds.
  pose proof (byte_index_nonneg (width info) x y Hw Hx Hy) as Hn.
  change (y * ((width info + 7) / 8) + x / 8) with (byte_index (width info) x y).
  destruct (byte_index (width info) x y <? Z.of_nat (length (bitmap_data info))) eqn:E.
  - apply Z.ltb_lt in E. rewrite bytes_getitem_ok by lia. done.
  - done.
Qed.

(** The decoder returns an image of the descriptor's size in which every
    pixel holds [pixel_color]. *)
Lemma decode_spec (info : bitmap_info) :
  0 ≤ width info ≤ max_width → 0 ≤ height info ≤ INT_MAX →
  ∃ img, convert_1bit_indexed_to_png info = Ok img ∧
    wf_image (width info) (height info) img ∧
    ∀ x y, 0 ≤ x < width info → 0 ≤ y < height info →
      getpixel img x y = Some (pixel_color info x y).
Proof.
  intros Hw Hh. unfold convert_1bit_indexed_to_png.
  destruct (Image_new_ok _ _ Hw Hh) as (img0 & -> & Hwf0). cbn.
  pose (w := width info). pose (h := height info).
  pose (Irow := λ (done : list Z) (img : image),
    wf_image w h img ∧
    ∀ x y, 0 ≤ x < w → y ∈ done → getpixel img x y = Some (pixel_color info x y)).
  match goal with |- ∃ img, for_in ?xs ?body ?s = _ ∧ _ =>
    destruct (for_in_invariant Irow body xs s) as (img & Hrun & Hwf & Hpix)
  end.
  - split; [done|]. intros x y _ Hy. by apply elem_of_nil in Hy.
  - intros done y rest img Hsplit [Hwf Hdone].
    assert (y ∈ range h) as Hy.
    { unfold h. rewrite Hsplit. apply elem_of_app. right. apply list_elem_of_here. }
    apply elem_of_range in Hy.
    pose (Icol := λ (seen : list Z) (img' : image),
      wf_image w h img' ∧
      ∀ x' y', getpixel img' x' y' =
        if decide (y' = y ∧ x' ∈ seen) then Some (pixel_color info x' y')
        else getpixel img x' y').
    match goal with |- ∃ s', for_in ?xs ?body ?s = _ ∧ _ =>
      destruct (for_in_invariant Icol body xs s) as (img' & Hrun' & Hwf' & Hpix')
    end.
    + split; [done|]. intros x' y'. rewrite decide_False; [done|].
      intros [_ Hin]. by apply elem_of_nil in Hin.
    + intros seen x rest' img1 Hsplit' [Hwf1 Hseen].
      assert (x ∈ range w) as Hx.
      { unfold w. rewrite Hsplit'. apply elem_of_app. right. apply list_elem_of_here. }
      apply elem_of_range in Hx.
      pose proof (pixel_step info img1 x y) as Hstep.
      cbv beta zeta in Hstep |- *. rewrite Hstep by lia.
      destruct (putpixel_ok w h img1 x y (pixel_color info x y) Hwf1 Hx Hy)
        as (img2 & -> & Hwf2 & Hget).
      exists img2. split; [done|]. split; [done|].
      intros x' y'. rewrite Hget, Hseen.
      destruct (decide (x' = x ∧ y' = y)) as [[-> ->]|Hne].
      * rewrite decide_True; [done|]. split; [done|].
        apply elem_of_app. right. apply list_elem_of_here.
      * destruct (decide (y' = y ∧ x' ∈ seen)) as [[-> Hin]|Hn].
        -- rewrite decide_True; [done|]. split; [done|].
           apply elem_of_app. by left.
        -- rewrite decide_False; [done|]. intros [-> Hin].
           apply elem_of_app in Hin as [Hin|Hin]; [tauto|].
           apply list_elem_of_singleton in Hin. tauto.
    + exists img'. split; [done|]. split; [done|].
      intros x y' Hx Hin. rewrite Hpix'.
      destruct (decide (y' = y)) as [->|Hne].
      * rewrite decide_True; [done|]. split; [done|]. by apply elem_of_range.
      * rewrite decide_False by tauto. apply Hdone; [done|].
        apply elem_of_app in Hin as [Hin|Hin]; [done|].
        apply list_elem_of_singleton in Hin. done.
  - exists img. split; [done|]. split; [done|].
    intros x y Hx Hy. apply Hpix; [done|]. by apply elem_of_range.
Qed.

Lemma land_1_mod (a : Z) : Z.land a 1 = a mod 2.
Proof. change 1 with (Z.ones 1). by rewrite Z.land_ones by lia. Qed.

Lemma bit_value_cases (b x : Z) : bit_value b x = 0 ∨ bit_value b x = 1.
Proof.
  unfold bit_value. rewrite land_1_mod.
  pose proof (Z.mod_pos_bound (Z.shiftr b (7 - x mod 8)) 2). lia.
Qed.

Lemma bit_value_testbit (b x : Z) :
  bit_value b x = Z.b2z (Z.testbit b (7 - x mod 8)).
Proof.
  unfold bit_value. pose proof (Z.mod_pos_bound x 8).
  rewrite Z.testbit_spec' by lia. rewrite Z.shiftr_div_pow2 by lia.
  apply land_1_mod.
Qed.

Lemma getpixel_lookup (img : image) (i j : nat) (row : list color) (c : color) :
  im_rows img !! i = Some row → row !! j = Some c →
  getpixel img (Z.of_nat j) (Z.of_nat i) = Some c.
Proof.
  intros Hr Hc. unfold getpixel. zcmp. cbn.
  rewrite !Nat2Z.id, Hr. cbn. done.
Qed.

Lemma wf_image_lookup (w h : Z) (img : image) (i j : nat) (row : list color) (c : color) :
  wf_image w h img → im_rows img !! i = Some row → row !! j = Some c →
  0 ≤ Z.of_nat j < w ∧ 0 ≤ Z.of_nat i < h.
Proof.
  intros (_ & _ & Hlen & Hrows) Hr Hc.
  pose proof (lookup_lt_Some _ _ _ Hr). pose proof (lookup_lt_Some _ _ _ Hc).
  eapply Forall_lookup in Hrows; eauto. cbn in Hrows. lia.
Qed.

Lemma div8_lt_stride (w x : Z) : 0 ≤ x < w → 0 ≤ x / 8 < bytes_per_row w.
Proof.
  intros Hx. unfold bytes_per_row.
  pose proof (Z.div_mod x 8). pose proof (Z.mod_pos_bound x 8).
  pose proof (Z.div_mod (w + 7) 8). pose proof (Z.mod_pos_bound (w + 7) 8).
  lia.
Qed.

(** ** The decoder's claims *)

(** C1: the byte 0xB0 as the only row of an 8 by 1 bitmap, with white for 0
    and black for 1, decodes to black, white, black, black, white, white,
    white, white; in general, in an image of a size the imaging library
    takes, a pixel read from the stream takes the bit of its byte found by
    shifting right [7 - x mod 8] places and masking the lowest bit, so that
    bit 7 is the leftmost pixel of each byte. *)
Theorem C1_bit_order :
  convert_1bit_indexed_to_png bit_order_info
    = Ok {| im_width := 8; im_height := 1;
            im_rows := [[black; white; black; black; white; white; white; white]] |}
  ∧ ∀ (info : bitmap_info) (x y : Z),
      width info ≤ max_width → height info ≤ INT_MAX →
      0 ≤ x < width info → 0 ≤ y < height info →
      byte_index (width info) x y < Z.of_nat (length (bitmap_data info)) →
      ∃ img byte_value,
        convert_1bit_indexed_to_png info = Ok img ∧
        bitmap_data info !! Z.to_nat (byte_index (width info) x y) = Some byte_value ∧
        getpixel img x y =
          Some (dict_get (colors info)
                  (Z.land (Z.shiftr byte_value (7 - x mod 8)) 1) (0, 0, 0, 255)) ∧
        (x mod 8 = 0 →
         Z.land (Z.shiftr byte_value (7 - x mod 8)) 1 = Z.b2z (Z.testbit byte_value 7)).
Proof.
  split; [vm_compute; reflexivity|].
  intros info x y Hwmax Hhmax Hx Hy Hin.
  destruct (decode_spec info) as (img & Hrun & _ & Hpix); [lia..|].
  pose proof (byte_index_nonneg (width info) x y) as Hn.
  destruct (bitmap_data info !! Z.to_nat (byte_index (width info) x y))
    as [bv|] eqn:Eb.
  2:{ apply lookup_ge_None in Eb. lia. }
  exists img, bv. split; [done|]. split; [done|]. split.
  - rewrite (Hpix x y Hx Hy). unfold pixel_color, in_bounds, byte_at.
    rewrite (proj2 (Z.ltb_lt _ _) Hin), Eb. done.
  - intros Hm. pose proof (bit_value_testbit bv x) as Ht.
    unfold bit_value in Ht. rewrite Ht, Hm. done.
Qed.

Lemma C1_bit_order_witness :
  ∃ img byte_value,
    convert_1bit_indexed_to_png bit_order_info = Ok img ∧
    bitmap_data bit_order_info !! Z.to_nat (byte_index 8 0 0) = Some byte_value ∧
    getpixel img 0 0 =
      Some (dict_get (colors bit_order_info)
              (Z.land (Z.shiftr byte_value (7 - 0 mod 8)) 1) (0, 0, 0, 255)) ∧
    (0 mod 8 = 0 →
     Z.land (Z.shiftr byte_value (7 - 0 mod 8)) 1 = Z.b2z (Z.testbit byte_value 7)).
Proof.
  apply (proj2 C1_bit_order bit_order_info 0 0); vm_compute; intuition congruence.
Defined.

(** C2, as the code has it: for a positive width up to [max_width] and a
    positive height up to [INT_MAX], the sizes the imaging library takes,
    the decoder raises nothing, and every pixel whose byte offset
    [y * ceil(width/8) + x/8] is at or past the end of the stream holds the
    palette's entry for index 0, or opaque black when the palette has no
    entry for index 0. *)
Theorem C2_decode_total_fallback (info : bitmap_info) :
  0 < width info ≤ max_width → 0 < height info ≤ INT_MAX →
  ∃ img, convert_1bit_indexed_to_png info = Ok img ∧
    ∀ x y, 0 ≤ x < width info → 0 ≤ y < height info →
      Z.of_nat (length (bitmap_data info)) ≤ y * ((width info + 7) / 8) + x / 8 →
      getpixel img x y =
        Some (match colors info !! 0 with
              | Some c => c
              | None => (0, 0, 0, 255)
              end).
Proof.
  intros Hw Hh.
  destruct (decode_spec info) as (img & Hrun & _ & Hpix); [lia..|].
  exists img. split; [done|]. intros x y Hx Hy Hout.
  rewrite (Hpix x y Hx Hy). unfold pixel_color, in_bounds, byte_index, bytes_per_row.
  rewrite (proj2 (Z.ltb_ge _ _) Hout). done.
Qed.

Lemma C2_decode_total_fallback_witness :
  ∃ img, convert_1bit_indexed_to_png short_info = Ok img ∧
    ∀ x y, 0 ≤ x < 10 → 0 ≤ y < 2 →
      Z.of_nat (length (bitmap_data short_info)) ≤ y * ((10 + 7) / 8) + x / 8 →
      getpixel img x y =
        Some (match colors short_info !! 0 with
              | Some c => c
              | None => (0, 0, 0, 255)
              end).
Proof. apply (C2_decode_total_fallback short_info); vm_compute; intuition congruence. Defined.

(** C2 as stated fails: width 2^32 and height 1 are positive, and the
    decoder raises [OverflowError] when it creates the image. *)
Lemma C2_counterexample :
  0 < width huge_info ∧ 0 < height huge_info ∧
  ∃ msg, convert_1bit_indexed_to_png huge_info = Raise (OverflowError msg).
Proof.
  split; [reflexivity|]. split; [reflexivity|]. eexists. vm_compute. reflexivity.
Qed.

(** C4: in an image of a size the imaging library takes, with a stream of
    exactly [height * ceil(width/8)] bytes every pixel is read from the
    stream; with a stream one byte shorter the decoder still
    returns, the pixels whose byte offset is past the end are exactly those
    of the last row that lie in the last byte of the row, they hold the
    index-0 fallback, and the bottom-right pixel is one of them. *)
Theorem C4_full_and_short_stream (info : bitmap_info) :
  0 < width info ≤ max_width → 0 < height info ≤ INT_MAX →
  (Z.of_nat (length (bitmap_data info)) = height info * ((width info + 7) / 8) →
   ∃ img, convert_1bit_indexed_to_png info = Ok img ∧
     ∀ x y, 0 ≤ x < width info → 0 ≤ y < height info →
       y * ((width info + 7) / 8) + x / 8 < Z.of_nat (length (bitmap_data info)) ∧
       ∃ byte_value,
         bitmap_data info !! Z.to_nat (y * ((width info + 7) / 8) + x / 8)
           = Some byte_value ∧
         getpixel img x y =
           Some (dict_get (colors info)
                   (Z.land (Z.shiftr byte_value (7 - x mod 8)) 1) (0, 0, 0, 255)))
  ∧
  (Z.of_nat (length (bitmap_data info)) = height info * ((width info + 7) / 8) - 1 →
   ∃ img, convert_1bit_indexed_to_png info = Ok img ∧
     (∀ x y, 0 ≤ x < width info → 0 ≤ y < height info →
        (Z.of_nat (length (bitmap_data info)) ≤ y * ((width info + 7) / 8) + x / 8
         ↔ y = height info - 1 ∧ x / 8 = (width info + 7) / 8 - 1) ∧
        getpixel img x y =
          Some (if decide (y = height info - 1 ∧ x / 8 = (width info + 7) / 8 - 1)
                then dict_get (colors info) 0 (0, 0, 0, 255)
                else dict_get (colors info) (bit_value (byte_at info x y) x) (0, 0, 0, 255)))
     ∧ getpixel img (width info - 1) (height info - 1)
         = Some (dict_get (colors info) 0 (0, 0, 0, 255))).
Proof.
  intros Hw Hh.
  destruct (decode_spec info) as (img & Hrun & _ & Hpix); [lia..|].
  assert (Hidx : ∀ x y, 0 ≤ x < width info → 0 ≤ y < height info →
            0 ≤ y * ((width info + 7) / 8) + x / 8
              ≤ height info * ((width info + 7) / 8) - 1
            ∧ (y * ((width info + 7) / 8) + x / 8
                 = height info * ((width info + 7) / 8) - 1
               ↔ y = height info - 1 ∧ x / 8 = (width info + 7) / 8 - 1)).
  { intros x y Hx Hy. pose proof (div8_lt_stride (width info) x Hx) as Hq.
    unfold bytes_per_row in Hq. nia. }
  split; intros Hlen; exists img; (split; [done|]).
  - intros x y Hx Hy. destruct (Hidx x y Hx Hy) as [Hb _].
    split; [lia|].
    destruct (bitmap_data info !! Z.to_nat (y * ((width info + 7) / 8) + x / 8))
      as [bv|] eqn:Eb.
    2:{ apply lookup_ge_None in Eb. lia. }
    exists bv. split; [done|].
    rewrite (Hpix x y Hx Hy). unfold pixel_color, in_bounds, byte_at, byte_index, bytes_per_row.
    rewrite (proj2 (Z.ltb_lt _ _)) by lia. rewrite Eb. done.
  - assert (Hall : ∀ x y, 0 ≤ x < width info → 0 ≤ y < height info →
        (Z.of_nat (length (bitmap_data info)) ≤ y * ((width info + 7) / 8) + x / 8
         ↔ y = height info - 1 ∧ x / 8 = (width info + 7) / 8 - 1) ∧
        getpixel img x y =
          Some (if decide (y = height info - 1 ∧ x / 8 = (width info + 7) / 8 - 1)
                then dict_get (colors info) 0 (0, 0, 0, 255)
                else dict_get (colors info) (bit_value (byte_at info x y) x) (0, 0, 0, 255))).
    { intros x y Hx Hy. destruct (Hidx x y Hx Hy) as [Hb Hlast].
      split; [rewrite <- Hlast; lia|].
      rewrite (Hpix x y Hx Hy). unfold pixel_color, in_bounds, byte_index, bytes_per_row.
      case_decide as Hd.
      - rewrite (proj2 (Z.ltb_ge _ _)); [done|]. apply Hlast in Hd. lia.
      - rewrite (proj2 (Z.ltb_lt _ _)); [done|].
        destruct (Z.eq_dec (y * ((width info + 7) / 8) + x / 8)
                    (height info * ((width info + 7) / 8) - 1)) as [E|E]; [|lia].
        apply Hlast in E. tauto. }
    split; [exact Hall|].
    destruct (Hall (width info - 1) (height info - 1)) as [_ Hg]; [lia..|].
    rewrite Hg. rewrite decide_True; [done|]. split; [done|].
    pose proof (Z.div_mod (width info - 1) 8). pose proof (Z.mod_pos_bound (width info - 1) 8).
    pose proof (Z.div_mod (width info + 7) 8). pose proof (Z.mod_pos_bound (width info + 7) 8).
    lia.
Qed.

Lemma C4_full_and_short_stream_witness :
  (∃ img, convert_1bit_indexed_to_png full_info = Ok img ∧
     ∀ x y, 0 ≤ x < 10 → 0 ≤ y < 2 →
       y * ((10 + 7) / 8) + x / 8 < 4 ∧
       ∃ byte_value,
         bitmap_data full_info !! Z.to_nat (y * ((10 + 7) / 8) + x / 8)
           = Some byte_value ∧
         getpixel img x y =
           Some (dict_get (colors full_info)
                   (Z.land (Z.shiftr byte_value (7 - x mod 8)) 1) (0, 0, 0, 255)))
  ∧ getpixel (default {| im_width := 0; im_height := 0; im_rows := [] |}
                (match convert_1bit_indexed_to_png short_info with
                 | Ok img => Some img
                 | Raise _ => None
                 end)) 9 1 = Some white.
Proof.
  split.
  - destruct (C4_full_and_short_stream full_info) as [Hfull _];
      [vm_compute; intuition congruence..|].
    apply Hfull. reflexivity.
  - destruct (C4_full_and_short_stream short_info) as [_ Hshort];
      [vm_compute; intuition congruence..|].
    destruct (Hshort eq_refl) as (img & Hrun & _ & Hlast).
    rewrite Hrun. exact Hlast.
Defined.

(** C10: for positive width and height of a size the imaging library
    takes, every color stored in the decoded grid is the palette's entry for
    index 0, the palette's entry for index 1, or opaque black. *)
Theorem C10_grid_colors (info : bitmap_info) :
  0 < width info ≤ max_width → 0 < height info ≤ INT_MAX →
  ∃ img, convert_1bit_indexed_to_png info = Ok img ∧
    length (im_rows img) = Z.to_nat (height info) ∧
    ∀ row c, row ∈ im_rows img → c ∈ row →
      length row = Z.to_nat (width info) ∧
      (colors info !! 0 = Some c ∨ colors info !! 1 = Some c ∨ c = (0, 0, 0, 255)).
Proof.
  intros Hw Hh.
  destruct (decode_spec info) as (img & Hrun & Hwf & Hpix); [lia..|].
  exists img. split; [done|]. split; [apply Hwf|].
  intros row c Hrow Hc.
  apply list_elem_of_lookup in Hrow as [i Hi]. apply list_elem_of_lookup in Hc as [j Hj].
  split.
  { destruct Hwf as (_ & _ & _ & Hrows). eapply Forall_lookup in Hrows; eauto. }
  destruct (wf_image_lookup _ _ _ _ _ _ _ Hwf Hi Hj) as [Hx Hy].
  pose proof (getpixel_lookup _ _ _ _ _ Hi Hj) as Hg.
  rewrite (Hpix _ _ Hx Hy) in Hg. injection Hg as <-.
  unfold pixel_color, dict_get, black.
  destruct (in_bounds info (Z.of_nat j) (Z.of_nat i)).
  - destruct (bit_value_cases (byte_at info (Z.of_nat j) (Z.of_nat i)) (Z.of_nat j)) as [-> | ->].
    + destruct (colors info !! 0); cbn; auto.
    + destruct (colors info !! 1); cbn; auto.
  - destruct (colors info !! 0); cbn; auto.
Qed.

Lemma C10_grid_colors_witness :
  ∃ img, convert_1bit_indexed_to_png short_info = Ok img ∧
    length (im_rows img) = Z.to_nat 2 ∧
    ∀ row c, row ∈ im_rows img → c ∈ row →
      length row = Z.to_nat 10 ∧
      (colors short_info !! 0 = Some c ∨ colors short_info !! 1 = Some c
       ∨ c = (0, 0, 0, 255)).
Proof. apply (C10_grid_colors short_info); vm_compute; intuition congruence. Defined.

(** ** The matcher against the language of the pattern *)

Section Matcher.
Context {R : Type}.
Implicit Types (k : list ascii → option R) (p : ascii → bool).

Lemma rep_greedy_sound p lo hi s k res :
  rep_greedy p lo hi s k = Some res →
  ∃ s1 s2, s = s1 ++ s2 ∧ Forall (λ ch, p ch = true) s1 ∧
    (lo ≤ length s1)%nat ∧ (∀ h, hi = Some h → (length s1 ≤ h)%nat) ∧
    k s2 = Some res.
Proof.
  revert lo hi. induction s as [|c s IH]; intros lo hi H; cbn in H.
  - destruct lo; [|done]. exists [], []. repeat split; auto; try (intros; cbn; lia).
  - assert (Hstop : match lo with O => k (c :: s) | S _ => None end = Some res →
              ∃ s1 s2, c :: s = s1 ++ s2 ∧ Forall (λ ch, p ch = true) s1 ∧
                (lo ≤ length s1)%nat ∧ (∀ h, hi = Some h → (length s1 ≤ h)%nat) ∧
                k s2 = Some res).
    { destruct lo; [|done]. intros Hk. exists [], (c :: s).
      repeat split; auto; try (intros; cbn; lia). }
    destruct (p c) eqn:Hp; [|by apply Hstop].
    destruct (hi_open hi) eqn:Hh; [|by apply Hstop]. cbn in H.
    destruct (rep_greedy p (Nat.pred lo) (Nat.pred <$> hi) s k) as [r|] eqn:Hin;
      [|by apply Hstop].
    injection H as ->.
    destruct (IH _ _ Hin) as (s1 & s2 & -> & Hall & Hlo & Hhi & Hk).
    exists (c :: s1), s2. repeat split; auto.
    + cbn. lia.
    + intros h ->. cbn in *. destruct h; [done|].
      specialize (Hhi h eq_refl). lia.
Qed.

Lemma rep_greedy_complete p lo hi s1 s2 k :
  Forall (λ ch, p ch = true) s1 → (lo ≤ length s1)%nat →
  (∀ h, hi = Some h → (length s1 ≤ h)%nat) →
  is_Some (k s2) → is_Some (rep_greedy p lo hi (s1 ++ s2) k).
Proof.
  intros Hall. revert lo hi.
  induction Hall as [|c s1 Hc Hall IH]; intros lo hi Hlo Hhi Hk.
  - cbn in Hlo. assert (lo = 0%nat) as -> by lia.
    cbn. destruct s2 as [|c s2]; cbn; [done|].
    destruct (p c && hi_open hi); [|done].
    destruct (rep_greedy p 0 (Nat.pred <$> hi) s2 k); [by eexists|done].
  - cbn. rewrite Hc.
    assert (hi_open hi = true) as ->.
    { destruct hi as [[|h]|]; try done. specialize (Hhi 0%nat eq_refl). cbn in Hhi. lia. }
    cbn. destruct (IH (Nat.pred lo) (Nat.pred <$> hi)) as [r ->]; [..|by eexists]; auto.
    + cbn in Hlo. lia.
    + intros h Hh. destruct hi as [h'|]; [|done]. injection Hh as <-.
      specialize (Hhi h' eq_refl). cbn in Hhi. lia.
Qed.

(** With no upper bound, a repetition whose continuation accepts anything
    stops at the first character outside the class. *)
Lemma rep_greedy_longest p lo s k res :
  (∀ s', is_Some (k s')) →
  rep_greedy p lo None s k = Some res →
  ∃ s1 s2, s = s1 ++ s2 ∧ Forall (λ ch, p ch = true) s1 ∧ (lo ≤ length s1)%nat ∧
    (∀ ch, head s2 = Some ch → p ch = false) ∧ k s2 = Some res.
Proof.
  intros Hk. revert lo. induction s as [|c s IH]; intros lo H; cbn in H.
  - destruct lo; [|done]. exists [], []. repeat split; auto; try (intros; cbn; lia). intros ch [=].
  - destruct (p c) eqn:Hp; cbn in H.
    + destruct (rep_greedy p (Nat.pred lo) None s k) as [r|] eqn:Hin.
      * injection H as ->.
        destruct (IH _ Hin) as (s1 & s2 & -> & Hall & Hlo & Hhd & Hres).
        exists (c :: s1), s2. repeat split; auto. cbn. lia.
      * destruct lo as [|lo]; [|done]. exfalso.
        assert (is_Some (rep_greedy p 0 None ([] ++ s) k)) as [r Hr].
        { apply rep_greedy_complete; [constructor|cbn; lia|intros h [=]|apply Hk]. }
        cbn in Hr, Hin. congruence.
    + destruct lo; [|done]. exists [], (c :: s). repeat split; auto; try (intros; cbn; lia).
      intros ch [= <-]. done.
Qed.
End Matcher.

Lemma match_re_sound {R} (r : regex) (s : list ascii) (caps : gmap nat (list ascii))
    (k : list ascii → gmap nat (list ascii) → option R) (res : R) :
  match_re r s caps k = Some res →
  ∃ s1 s2 caps', s = s1 ++ s2 ∧ matches r s1 caps caps' ∧ k s2 caps' = Some res.
Proof.
  revert s caps k. induction r as [|p|p lo hi|i r IH|r1 IH1 r2 IH2]; intros s caps k H; cbn in H.
  - exists [], s, caps. done.
  - destruct s as [|c s]; [done|]. destruct (p c) eqn:Hp; [|done].
    exists [c], s, caps. split; [done|]. split; [|done]. by exists c.
  - apply rep_greedy_sound in H as (s1 & s2 & -> & Hall & Hlo & Hhi & Hk).
    exists s1, s2, caps. done.
  - apply IH in H as (s1 & s2 & c1 & -> & Hm & Hk).
    rewrite length_app in Hk.
    replace (length s1 + length s2 - length s2)%nat with (length s1) in Hk by lia.
    rewrite take_app_length in Hk.
    exists s1, s2, (<[i := s1]> c1). split; [done|]. split; [|done]. by exists c1.
  - apply IH1 in H as (s1 & s' & c1 & -> & Hm1 & H).
    apply IH2 in H as (s2 & s3 & c2 & -> & Hm2 & Hk).
    exists (s1 ++ s2), s3, c2. rewrite <- app_assoc. split; [done|]. split; [|done].
    by exists s1, s2, c1.
Qed.

Lemma match_re_complete {R} (r : regex) (s1 s2 : list ascii)
    (c c' caps : gmap nat (list ascii))
    (k : list ascii → gmap nat (list ascii) → option R) :
  matches r s1 c c' → (∀ g, is_Some (k s2 g)) →
  is_Some (match_re r (s1 ++ s2) caps k).
Proof.
  revert s1 s2 c c' caps k.
  induction r as [|p|p lo hi|i r IH|r1 IH1 r2 IH2]; intros s1 s2 c c' caps k Hm Hk; cbn in Hm |- *.
  - destruct Hm as [-> _]. apply Hk.
  - destruct Hm as (ch & -> & Hp & _). cbn. rewrite Hp. apply Hk.
  - destruct Hm as (Hall & Hlo & Hhi & _). by apply rep_greedy_complete.
  - destruct Hm as (c1 & Hm & _). eapply IH; [done|]. intros g. apply Hk.
  - destruct Hm as (sa & sb & c1 & -> & Hm1 & Hm2). rewrite <- app_assoc.
    eapply IH1; [done|]. intros g. eapply IH2; [done|]. done.
Qed.

(** ** Anchored matches, search and iteration *)

Lemma match_at_sound (r : regex) (s : list ascii) (n : nat) (g : gmap nat (list ascii)) :
  match_at r s = Some (n, g) →
  ∃ s1 s2, s = s1 ++ s2 ∧ matches r s1 ∅ g ∧ n = length s1.
Proof.
  intros H. apply match_re_sound in H as (s1 & s2 & g' & -> & Hm & Hk).
  injection Hk as <- <-. exists s1, s2. split; [done|]. split; [done|].
  rewrite length_app. lia.
Qed.

Lemma match_at_complete (r : regex) (s1 s2 : list ascii) (c g : gmap nat (list ascii)) :
  matches r s1 c g → is_Some (match_at r (s1 ++ s2)).
Proof. intros Hm. eapply match_re_complete; [done|]. intros g'. by eexists. Qed.

Lemma starts_at_match_at (r : regex) (s : list ascii) (n : nat) :
  starts_at r s n ↔ (n ≤ length s)%nat ∧ is_Some (match_at r (drop n s)).
Proof.
  split.
  - intros (mid & rest & g & Hd & Hn & Hm). split; [done|].
    rewrite Hd. by eapply match_at_complete.
  - intros [Hn [[len g] Hs]]. apply match_at_sound in Hs as (s1 & s2 & Hd & Hm & _).
    by exists s1, s2, g.
Qed.

Lemma occurs_starts_at (r : regex) (s : list ascii) :
  occurs r s ↔ ∃ n, starts_at r s n.
Proof.
  split.
  - intros (pre & mid & post & g & -> & Hm). exists (length pre), mid, post, g.
    rewrite drop_app_length. split; [done|]. split; [|done].
    rewrite length_app. lia.
  - intros (n & mid & rest & g & Hd & Hn & Hm). exists (take n s), mid, rest, g.
    split; [|done]. rewrite <- Hd. by rewrite take_drop.
Qed.

Lemma search_from_Some (r : regex) (s : list ascii) (pos : nat) (m : rematch) :
  search_from r s pos = Some m →
  ∃ n len, (n ≤ length s)%nat ∧ m_start m = (pos + n)%nat ∧ m_end m = (pos + n + len)%nat ∧
    (∀ n', (n' < n)%nat → match_at r (drop n' s) = None) ∧
    match_at r (drop n s) = Some (len, m_groups m).
Proof.
  revert pos. induction s as [|c s IH]; intros pos H; cbn [search_from] in H.
  - destruct (match_at r []) as [[len g]|] eqn:E; [|done]. injection H as <-.
    exists 0%nat, len. cbn. repeat split; try lia. done.
  - destruct (match_at r (c :: s)) as [[len g]|] eqn:E.
    + injection H as <-. exists 0%nat, len. cbn. repeat split; try lia. done.
    + apply IH in H as (n & len & Hn & Hs & He & Hbefore & Hat).
      exists (S n), len. cbn. repeat split; try lia; [|done].
      intros [|n'] Hlt; cbn; [done|]. apply Hbefore. lia.
Qed.

Lemma search_from_None (r : regex) (s : list ascii) (pos : nat) :
  search_from r s pos = None →
  ∀ n, (n ≤ length s)%nat → match_at r (drop n s) = None.
Proof.
  revert pos. induction s as [|c s IH]; intros pos H n Hn; cbn [search_from] in H.
  - destruct (match_at r []) as [[len g]|] eqn:E; [done|].
    cbn in Hn. by replace n with 0%nat by lia.
  - destruct (match_at r (c :: s)) as [[len g]|] eqn:E; [done|].
    destruct n as [|n]; cbn; [done|]. eapply IH; [done|]. cbn in Hn. lia.
Qed.

(** [re.search] fails exactly when the pattern matches nowhere. *)
Lemma re_search_None (r : regex) (s : list ascii) :
  re_search r s = None ↔ ¬ occurs r s.
Proof.
  rewrite occurs_starts_at. split.
  - intros H [n Hn]. apply starts_at_match_at in Hn as [Hn [x Hx]].
    rewrite (search_from_None _ _ _ H n Hn) in Hx. done.
  - intros Hno. destruct (re_search r s) as [m|] eqn:E; [|done]. exfalso.
    apply search_from_Some in E as (n & len & Hn & _ & _ & _ & Hat).
    apply Hno. exists n. apply starts_at_match_at. split; [done|]. by eexists.
Qed.

Lemma re_search_is_Some (r : regex) (s : list ascii) :
  is_Some (re_search r s) ↔ occurs r s.
Proof.
  split.
  - intros [m Hm].
    apply search_from_Some in Hm as (n & len & Hn & _ & _ & _ & Hat).
    apply occurs_starts_at. exists n. apply starts_at_match_at. split; [done|]. by eexists.
  - intros Ho. destruct (re_search r s) eqn:E; [by eexists|].
    apply re_search_None in E. done.
Qed.

(** [re.search] returns a match at the leftmost offset where one starts. *)
Lemma re_search_Some (r : regex) (s : list ascii) (m : rematch) :
  re_search r s = Some m →
  ∃ pre mid post, s = pre ++ mid ++ post ∧ matches r mid ∅ (m_groups m) ∧
    m_start m = length pre ∧ m_end m = (length pre + length mid)%nat ∧
    ∀ n', (n' < length pre)%nat → ¬ starts_at r s n'.
Proof.
  intros H. apply search_from_Some in H as (n & len & Hn & Hs & He & Hbefore & Hat).
  apply match_at_sound in Hat as (s1 & s2 & Hd & Hm & ->).
  exists (take n s), s1, s2. rewrite length_take_le by done.
  split; [by rewrite <- Hd, take_drop|]. repeat split; try done.
  intros n' Hlt Hst. apply starts_at_match_at in Hst as [_ [x Hx]].
  rewrite (Hbefore n' Hlt) in Hx. done.
Qed.

Lemma re_search_first (r : regex) (s : list ascii) (n : nat) :
  starts_at r s n → (∀ n', (n' < n)%nat → ¬ starts_at r s n') →
  ∃ m mid rest, re_search r s = Some m ∧ m_start m = n ∧
    drop n s = mid ++ rest ∧ matches r mid ∅ (m_groups m).
Proof.
  intros Hst Hfirst. destruct (re_search r s) as [m|] eqn:E.
  - apply search_from_Some in E as (n0 & len & Hn & Hs & He & Hbefore & Hat).
    assert (n0 = n) as ->.
    { destruct (Nat.lt_trichotomy n0 n) as [Hlt|[->|Hgt]]; [|done|].
      - exfalso. apply (Hfirst n0 Hlt). apply starts_at_match_at. split; [done|]. by eexists.
      - exfalso. apply starts_at_match_at in Hst as [_ [x Hx]].
        rewrite (Hbefore n Hgt) in Hx. done. }
    apply match_at_sound in Hat as (s1 & s2 & Hd & Hm & ->).
    exists m, s1, s2. done.
  - exfalso. apply re_search_None in E. apply E. apply occurs_starts_at. by exists n.
Qed.

Lemma finditer_from_matches (r : regex) (s : list ascii) (pos skip : nat) :
  Forall (λ m, ∃ mid, matches r mid ∅ (m_groups m)) (finditer_from r s pos skip).
Proof.
  revert pos skip. induction s as [|c s IH]; intros pos skip.
  - destruct skip; cbn; [|constructor].
    destruct (match_at r []) as [[len g]|] eqn:E; [|constructor].
    apply match_at_sound in E as (s1 & s2 & _ & Hm & _).
    constructor; [by exists s1|constructor].
  - destruct skip; cbn; [|apply IH].
    destruct (match_at r (c :: s)) as [[len g]|] eqn:E; [|apply IH].
    apply match_at_sound in E as (s1 & s2 & _ & Hm & _).
    constructor; [by exists s1|apply IH].
Qed.

Lemma finditer_from_none (r : regex) (s : list ascii) (pos : nat) :
  ¬ occurs r s → finditer_from r s pos 0 = [].
Proof.
  revert pos. induction s as [|c s IH]; intros pos Hno; cbn.
  - destruct (match_at r []) as [[len g]|] eqn:E; [|done]. exfalso.
    apply Hno. apply occurs_starts_at. exists 0%nat. apply starts_at_match_at.
    split; [done|]. by eexists.
  - destruct (match_at r (c :: s)) as [[len g]|] eqn:E.
    + exfalso. apply Hno. apply occurs_starts_at. exists 0%nat. apply starts_at_match_at.
      split; [cbn; lia|]. by eexists.
    + apply IH. intros (pre & mid & post & g & -> & Hm). apply Hno.
      by exists (c :: pre), mid, post, g.
Qed.

(** ** The patterns as declarations *)

Lemma is_char_true (x ch : ascii) : is_char x ch = true ↔ ch = x.
Proof. unfold is_char. rewrite Ascii.eqb_eq. naive_solver. Qed.

Lemma is_not_true (x ch : ascii) : is_not x ch = true ↔ ch ≠ x.
Proof.
  unfold is_not. rewrite negb_true_iff. split.
  - intros H ->. by rewrite Ascii.eqb_refl in H.
  - intros H. apply Ascii.eqb_neq. congruence.
Qed.

Lemma matches_lits (l s : list ascii) (c c' : gmap nat (list ascii)) :
  matches (lits l) s c c' ↔ s = l ∧ c' = c.
Proof.
  unfold lits. revert s. induction l as [|x l IH]; intros s; cbn.
  - done.
  - split.
    + intros (s1 & s2 & c1 & -> & (ch & -> & Hc & ->) & Hm).
      apply IH in Hm as [-> ->]. apply is_char_true in Hc as ->. done.
    + intros [-> ->]. exists [x], l, c. split; [done|]. split.
      * exists x. split; [done|]. split; [by apply is_char_true|done].
      * by apply IH.
Qed.

Lemma matches_lit (l : string) (s : list ascii) (c c' : gmap nat (list ascii)) :
  matches (lit l) s c c' ↔ s = text l ∧ c' = c.
Proof. apply matches_lits. Qed.

Lemma matches_star (p : ascii → bool) (s : list ascii) (c c' : gmap nat (list ascii)) :
  matches (star p) s c c' ↔ all_in p s ∧ c' = c.
Proof.
  unfold star, all_in. cbn. split.
  - intros (H & _ & _ & ->). done.
  - intros [H ->]. repeat split; try done. lia.
Qed.

Lemma matches_plus (p : ascii → bool) (s : list ascii) (c c' : gmap nat (list ascii)) :
  matches (plus p) s c c' ↔ s ≠ [] ∧ all_in p s ∧ c' = c.
Proof.
  unfold plus, all_in. cbn. split.
  - intros (H & Hl & _ & ->). repeat split; try done. intros ->. cbn in Hl. lia.
  - intros (Hne & H & ->). repeat split; try done. destruct s; [done|cbn; lia].
Qed.

Lemma matches_exactly (n : nat) (p : ascii → bool) (s : list ascii)
    (c c' : gmap nat (list ascii)) :
  matches (exactly n p) s c c' ↔ length s = n ∧ all_in p s ∧ c' = c.
Proof.
  unfold exactly, all_in. cbn. split.
  - intros (H & Hl & Hh & ->). specialize (Hh n eq_refl). repeat split; try done. lia.
  - intros (Hl & H & ->). repeat split; try done; [lia|]. intros h [= <-]. lia.
Qed.

(** Take a hypothesis [matches pattern s c c'] apart, piece by piece. *)
Ltac invert_matches :=
  repeat match goal with
  | H : matches (seq_re _) _ _ _ |- _ => unfold seq_re in H; cbn [foldr] in H
  | H : matches (Cat _ _) _ _ _ |- _ =>
      let s1 := fresh "s" in let s2 := fresh "s" in let c1 := fresh "c" in
      destruct H as (s1 & s2 & c1 & -> & ? & ?)
  | H : matches (Group _ _) _ _ _ |- _ =>
      let c1 := fresh "c" in destruct H as (c1 & ? & ->)
  | H : matches Empty _ _ _ |- _ => destruct H as [-> ->]
  | H : matches (Chr (is_char _)) _ _ _ |- _ =>
      let ch := fresh "ch" in let Hc := fresh "Hc" in
      destruct H as (ch & -> & Hc & ->); apply is_char_true in Hc as ->
  | H : matches (lit _) _ _ _ |- _ => apply matches_lit in H as [-> ->]
  | H : matches (lits _) _ _ _ |- _ => apply matches_lits in H as [-> ->]
  | H : matches (star _) _ _ _ |- _ => apply matches_star in H as [? ->]
  | H : matches (plus _) _ _ _ |- _ => apply matches_plus in H as (? & ? & ->)
  | H : matches (exactly _ _) _ _ _ |- _ => apply matches_exactly in H as (? & ? & ->)
  end.

(** Build [matches pattern s c c'] for a string written as the pieces. *)
Ltac build_matches :=
  unfold seq_re; cbn [foldr];
  repeat match goal with
  | |- matches (Cat _ Empty) ?s _ _ =>
      exists s, []; eexists; split; [by rewrite app_nil_r|split]
  | |- matches (Cat _ _) _ _ _ => eexists _, _, _; split; [reflexivity|split]
  | |- matches (Group _ _) _ _ _ => eexists; split; [|reflexivity]
  | |- matches Empty _ _ _ => split; reflexivity
  | |- matches (Chr (is_char _)) _ _ _ =>
      eexists; split; [reflexivity|split; [by apply is_char_true|reflexivity]]
  | |- matches (lit _) _ _ _ => apply matches_lit; split; reflexivity
  | |- matches (lits _) _ _ _ => apply matches_lits; split; reflexivity
  | |- matches (star _) _ _ _ => apply matches_star; split; [eassumption|reflexivity]
  | |- matches (plus _) _ _ _ =>
      apply matches_plus; split; [eassumption|split; [eassumption|reflexivity]]
  | |- matches (exactly _ _) _ _ _ =>
      apply matches_exactly; split; [eassumption|split; [eassumption|reflexivity]]
  end.

Lemma matches_bitmap_pattern (mid : list ascii) (g : gmap nat (list ascii)) :
  matches bitmap_pattern mid ∅ g ↔
  ∃ name body, array_decl name body mid ∧ g = <[2%nat := body]> (<[1%nat := name]> ∅).
Proof.
  unfold bitmap_pattern. split.
  - intros H. invert_matches. eexists _, _. split; [|reflexivity].
    eexists _, _. rewrite app_nil_r. repeat split; eauto.
  - intros (name & body & (ws1 & ws2 & -> & Hn & Hw & H1 & H2 & Hb & Hbb) & ->).
    build_matches.
Qed.

Lemma matches_field_pattern (label : string) (p : ascii → bool)
    (mid : list ascii) (g : gmap nat (list ascii)) :
  matches (field_pattern label p) mid ∅ g ↔
  ∃ value, field label p value mid ∧ g = <[1%nat := value]> ∅.
Proof.
  unfold field_pattern. split.
  - intros H. invert_matches. eexists. split; [|reflexivity].
    eexists _, _. rewrite app_nil_r. repeat split; eauto.
  - intros (value & (ws1 & ws2 & -> & H1 & H2 & Hv & Hvv) & ->).
    build_matches.
Qed.

Lemma matches_hex_pattern (mid : list ascii) (g : gmap nat (list ascii)) :
  matches hex_pattern mid ∅ g →
  ∃ h, mid = text "0x" ++ h ∧ length h = 2%nat ∧ all_in is_hex h ∧ g = <[1%nat := h]> ∅.
Proof.
  unfold hex_pattern. intros H. invert_matches.
  eexists. rewrite app_nil_r. repeat split; eauto.
Qed.




Lemma starts_at_array (content : list ascii) (n : nat) :
  starts_at bitmap_pattern content n ↔ array_decl_at content n.
Proof.
  split.
  - intros (mid & rest & g & Hd & Hn & Hm).
    apply matches_bitmap_pattern in Hm as (name & body & Ha & _).
    by exists name, body, mid, rest.
  - intros (name & body & mid & rest & Hd & Hn & Ha).
    exists mid, rest, (<[2%nat := body]> (<[1%nat := name]> ∅)).
    split; [done|]. split; [done|]. apply matches_bitmap_pattern. by exists name, body.
Qed.

Lemma starts_at_field (label : string) (p : ascii → bool) (blk : list ascii) (n : nat) :
  starts_at (field_pattern label p) blk n ↔ field_at label p blk n.
Proof.
  split.
  - intros (mid & rest & g & Hd & Hn & Hm).
    apply matches_field_pattern in Hm as (value & Hf & _).
    by exists value, mid, rest.
  - intros (value & mid & rest & Hd & Hn & Hf).
    exists mid, rest, (<[1%nat := value]> ∅).
    split; [done|]. split; [done|]. apply matches_field_pattern. by exists value.
Qed.


Lemma occurs_field (label : string) (p : ascii → bool) (blk : list ascii) :
  occurs (field_pattern label p) blk ↔ has_field label p blk.
Proof.
  split.
  - intros (pre & mid & post & g & -> & Hm).
    apply matches_field_pattern in Hm as (value & Hf & _).
    by exists pre, value, mid, post.
  - intros (pre & value & mid & post & -> & Hf).
    exists pre, mid, post, (<[1%nat := value]> ∅).
    split; [done|]. apply matches_field_pattern. by exists value.
Qed.

(** ** Integer literals *)

Ltac zcases :=
  repeat match goal with
  | |- context [?a <=? ?b] => destruct (Z.leb_spec a b)
  | H : context [?a <=? ?b] |- _ => destruct (Z.leb_spec a b)
  end.

Lemma digit_of_digit (ch : ascii) :
  is_digit ch = true → digit_of ch = Some (code ch - 48) ∧ 0 ≤ code ch - 48 < 10.
Proof.
  unfold is_digit, digit_of, between. intros H.
  zcases; cbn in *; try done; try (exfalso; lia); split; try done; lia.
Qed.

Lemma digit_of_hex (ch : ascii) :
  is_hex ch = true → ∃ d, digit_of ch = Some d ∧ 0 ≤ d < 16.
Proof.
  unfold is_hex, digit_of, between. intros H.
  zcases; cbn in *; try done; try (exfalso; lia); eexists; (split; [reflexivity|lia]).
Qed.

Lemma int_digits_decimal (digits : list ascii) (acc : Z) :
  all_in is_digit digits →
  int_digits 10 acc digits = Some (foldl (λ a ch, 10 * a + (code ch - 48)) acc digits).
Proof.
  intros H. revert acc. induction H as [|ch s Hc Hs IH]; intros acc; cbn; [done|].
  destruct (digit_of_digit ch Hc) as [-> Hr]. zcmp. apply IH.
Qed.

Lemma count_digits_decimal (digits : list ascii) :
  all_in is_digit digits → count_digits 10 digits = length digits.
Proof.
  induction 1 as [|ch s Hc Hs IH]; cbn [count_digits length]; [done|].
  destruct (digit_of_digit ch Hc) as [-> Hr]. zcmp. by rewrite IH.
Qed.

(** [int] on a run of decimal digits: its value up to the digit limit, and
    the limit's [ValueError] past it. *)
Lemma int_decimal_cases (digits : list ascii) :
  digits ≠ [] → all_in is_digit digits →
  int_ digits 10
  = if (int_max_str_digits <? length digits)%nat
    then Raise (ValueError (limit_message (length digits)))
    else Ok (decimal digits).
Proof.
  intros Hne H. unfold int_. rewrite count_digits_decimal by done.
  change (negb (power_of_two_base 10)) with true. cbn [andb].
  destruct (int_max_str_digits <? length digits)%nat; [done|].
  destruct digits as [|ch s]; [done|]. by rewrite int_digits_decimal.
Qed.

Lemma int_decimal (digits : list ascii) :
  digits ≠ [] → all_in is_digit digits → (length digits ≤ int_max_str_digits)%nat →
  int_ digits 10 = Ok (decimal digits).
Proof.
  intros Hne H Hlen. rewrite int_decimal_cases by done.
  destruct (Nat.ltb_spec int_max_str_digits (length digits)); [lia|done].
Qed.

Lemma int_decimal_long (digits : list ascii) :
  all_in is_digit digits → (int_max_str_digits < length digits)%nat →
  int_ digits 10 = Raise (ValueError (limit_message (length digits))).
Proof.
  intros H Hlen. rewrite int_decimal_cases; [|by intros ->; cbn in Hlen; lia|done].
  destruct (Nat.ltb_spec int_max_str_digits (length digits)); [done|lia].
Qed.

Lemma int_decimal_inv (digits : list ascii) (v : Z) :
  digits ≠ [] → all_in is_digit digits → int_ digits 10 = Ok v →
  v = decimal digits ∧ (length digits ≤ int_max_str_digits)%nat.
Proof.
  intros Hne H. rewrite int_decimal_cases by done.
  destruct (Nat.ltb_spec int_max_str_digits (length digits)); [done|].
  intros [= <-]. done.
Qed.

Lemma int_digits_hex (s : list ascii) (acc : Z) :
  all_in is_hex s →
  int_digits 16 acc s
  = Some (foldl (λ a ch, 16 * a + default 0 (digit_of ch)) acc s).
Proof.
  intros H. revert acc. induction H as [|ch s Hc Hs IH]; intros acc; cbn; [done|].
  destruct (digit_of_hex ch Hc) as (d & -> & Hr). zcmp. cbn. apply IH.
Qed.

(** Base 16 is a power of two: no digit limit. *)
Lemma int_hex (h : list ascii) :
  h ≠ [] → all_in is_hex h → int_ h 16 = Ok (hex_val h).
Proof.
  intros Hne H. unfold int_.
  change (negb (power_of_two_base 16)) with false. cbn [andb].
  destruct h as [|c h]; [done|]. by rewrite int_digits_hex.
Qed.

Lemma int_hex_byte (h : list ascii) :
  length h = 2%nat → all_in is_hex h → ∃ v, int_ h 16 = Ok v ∧ 0 ≤ v < 256.
Proof.
  intros Hl H. rewrite int_hex; [|by intros ->|done].
  eexists. split; [done|].
  destruct h as [|c1 [|c2 [|]]]; try done.
  apply Forall_cons in H as [H1 H2]. apply Forall_cons in H2 as [H2 _].
  destruct (digit_of_hex c1 H1) as (d1 & E1 & R1).
  destruct (digit_of_hex c2 H2) as (d2 & E2 & R2).
  unfold hex_val. cbn. rewrite E1, E2. cbn. lia.
Qed.

Lemma int_hex_val (h : list ascii) :
  length h = 2%nat → all_in is_hex h →
  int_ h 16 = Ok (hex_val h) ∧ 0 ≤ hex_val h < 256.
Proof.
  intros Hl H. destruct (int_hex_byte h Hl H) as (v & Hv & Hr).
  rewrite int_hex in Hv; [|by intros ->|done]. injection Hv as Hv.
  split; [by apply int_hex; [intros ->|]|]. by rewrite Hv.
Qed.

Lemma decimal_nonneg (digits : list ascii) : all_in is_digit digits → 0 ≤ decimal digits.
Proof.
  unfold decimal. intros H.
  assert (∀ acc, 0 ≤ acc → 0 ≤ foldl (λ a ch, 10 * a + (code ch - 48)) acc digits) as Hg.
  { induction H as [|ch s Hc Hs IH]; intros acc Hacc; cbn; [done|].
    apply IH. destruct (digit_of_digit ch Hc) as [_ Hr]. lia. }
  by apply Hg.
Qed.

Lemma mapM_ok {A B} (f : A → result B) (P : B → Prop) (xs : list A) :
  Forall (λ x, ∃ v, f x = Ok v ∧ P v) xs →
  ∃ vs, mapM f xs = Ok vs ∧ Forall P vs ∧ length vs = length xs.
Proof.
  induction 1 as [|x xs (v & Hv & HP) _ (vs & Hvs & HPs & Hl)]; cbn.
  - by exists [].
  - rewrite Hv. cbn. rewrite Hvs. cbn. exists (v :: vs).
    split; [done|]. split; [by constructor|]. cbn. by rewrite Hl.
Qed.

Lemma bytes_ok (xs : list Z) : Forall (λ v, 0 ≤ v < 256) xs → bytes_ xs = Ok xs.
Proof.
  intros H. unfold bytes_.
  assert (forallb (λ v, (0 <=? v) && (v <? 256)) xs = true) as ->; [|done].
  apply forallb_forall. intros v Hv. apply list_elem_of_In in Hv.
  eapply Forall_forall in H; [|done]. cbn in H. zcmp. done.
Qed.

Lemma group_insert (i : nat) (v : list ascii) (g : gmap nat (list ascii))
    (m : rematch) :
  m_groups m = <[i := v]> g → group m i = v.
Proof. intros H. unfold group. rewrite H, lookup_insert_eq. done. Qed.

(** Every string [re.findall] returns for the byte pattern is two hex
    digits, hence a byte. *)
Lemma findall_hex_bytes (s : list ascii) :
  Forall (λ val, ∃ v, int_ val 16 = Ok v ∧ 0 ≤ v < 256) (re_findall hex_pattern s).
Proof.
  unfold re_findall, re_finditer. apply Forall_fmap.
  eapply Forall_impl; [apply finditer_from_matches|].
  intros m [mid Hm]. cbn.
  apply matches_hex_pattern in Hm as (h & _ & Hl & Hh & Hg).
  rewrite (group_insert _ _ _ _ Hg). by apply int_hex_byte.
Qed.

(** The byte-extraction step raises nothing, whatever the array body: its
    stream holds one byte for every hex literal after the eighth. *)
Lemma stream_ok (body : list ascii) :
  ∃ stream,
    (ints ←! mapM (λ val, int_ val 16) (drop 8 (re_findall hex_pattern body));
     bytes_ ints) = Ok stream ∧
    mapM (λ val, int_ val 16) (drop 8 (re_findall hex_pattern body)) = Ok stream ∧
    length stream = length (drop 8 (re_findall hex_pattern body)) ∧
    Forall (λ v, 0 ≤ v < 256) stream.
Proof.
  destruct (mapM_ok (λ val, int_ val 16) (λ v, 0 ≤ v < 256)
              (drop 8 (re_findall hex_pattern body)))
    as (stream & Hmap & Hrange & Hlen).
  { apply Forall_drop, findall_hex_bytes. }
  exists stream. rewrite Hmap. cbn [rbind]. by rewrite (bytes_ok stream Hrange).
Qed.

(** ** The palette scan *)

Lemma for_in_foldl {A S} (f : S → A → S) (body : A → S → result S)
    (xs : list A) (s : S) :
  Forall (λ x, ∀ s', body x s' = Ok (f s' x)) xs →
  for_in xs body s = Ok (foldl f s xs).
Proof.
  intros H. revert s. induction H as [|x xs Hx _ IH]; intros s; cbn; [done|].
  rewrite Hx. cbn. apply IH.
Qed.

Lemma for_in_foldl_inv {A S} (f : S → A → S) (body : A → S → result S)
    (xs : list A) (s r : S) :
  Forall (λ x, ∀ s' r', body x s' = Ok r' → r' = f s' x) xs →
  for_in xs body s = Ok r → r = foldl f s xs.
Proof.
  intros H. revert s. induction H as [|x xs Hx _ IH]; intros s; cbn.
  - by intros [= <-].
  - destruct (body x s) as [s1|e] eqn:E; cbn; [|done].
    rewrite <- (Hx _ _ E). apply IH.
Qed.

(** Every match [re.finditer] returns is a piece of the text. *)
Lemma finditer_from_within (r : regex) (s : list ascii) (pos skip : nat) :
  Forall (λ m, ∃ pre mid post, s = pre ++ mid ++ post ∧ matches r mid ∅ (m_groups m))
    (finditer_from r s pos skip).
Proof.
  revert pos skip. induction s as [|c s IH]; intros pos skip.
  - destruct skip; cbn; [|constructor].
    destruct (match_at r []) as [[len g]|] eqn:E; [|constructor].
    apply match_at_sound in E as (s1 & s2 & Hs & Hm & _).
    constructor; [|constructor]. by exists [], s1, s2.
  - assert (∀ pos' skip',
              Forall (λ m, ∃ pre mid post,
                        c :: s = pre ++ mid ++ post ∧ matches r mid ∅ (m_groups m))
                (finditer_from r s pos' skip')) as Htail.
    { intros pos' skip'. eapply Forall_impl; [apply IH|].
      intros m (pre & mid & post & -> & Hm). by exists (c :: pre), mid, post. }
    destruct skip; cbn; [|apply Htail].
    destruct (match_at r (c :: s)) as [[len g]|] eqn:E; [|apply Htail].
    apply match_at_sound in E as (s1 & s2 & Hs & Hm & _).
    constructor; [|apply Htail]. by exists [], s1, s2.
Qed.

(** What a match of the palette pattern holds in its groups. *)
Lemma matches_color_pattern_with (mid : list ascii) (g : gmap nat (list ascii)) :
  matches color_pattern mid ∅ g →
  ∃ idx r gg b a,
    palette_entry_with idx mid ∧
    length r = 2%nat ∧ all_in is_hex r ∧ length gg = 2%nat ∧ all_in is_hex gg ∧
    length b = 2%nat ∧ all_in is_hex b ∧ length a = 2%nat ∧ all_in is_hex a ∧
    g = <[5%nat := a]> (<[4%nat := b]> (<[3%nat := gg]> (<[2%nat := r]> (<[1%nat := idx]> ∅)))).
Proof.
  unfold color_pattern. intros H. invert_matches.
  eexists _, _, _, _, _. split.
  - eexists _, _, _, _, _, _, _, _, _. rewrite app_nil_r.
    split; [reflexivity|]. repeat split; eauto.
  - repeat split; eauto.
Qed.

Lemma matches_color_groups (mid : list ascii) (m : rematch) :
  matches color_pattern mid ∅ (m_groups m) →
  palette_entry_with (group m 1) mid ∧
  (length (group m 2) = 2%nat ∧ all_in is_hex (group m 2)) ∧
  (length (group m 3) = 2%nat ∧ all_in is_hex (group m 3)) ∧
  (length (group m 4) = 2%nat ∧ all_in is_hex (group m 4)) ∧
  (length (group m 5) = 2%nat ∧ all_in is_hex (group m 5)).
Proof.
  intros H. apply matches_color_pattern_with in H
    as (idx & r & gg & b & a & He & Hr & Hrh & Hg & Hgh & Hb & Hbh & Ha & Hah & Hgr).
  assert (group m 1 = idx ∧ group m 2 = r ∧ group m 3 = gg ∧ group m 4 = b
          ∧ group m 5 = a) as (-> & -> & -> & -> & ->).
  { unfold group. rewrite Hgr. by simplify_map_eq. }
  done.
Qed.

Lemma finditer_color_within (content : list ascii) :
  Forall (λ m,
    (∃ pre mid post, content = pre ++ mid ++ post ∧ palette_entry_with (group m 1) mid) ∧
    (length (group m 2) = 2%nat ∧ all_in is_hex (group m 2)) ∧
    (length (group m 3) = 2%nat ∧ all_in is_hex (group m 3)) ∧
    (length (group m 4) = 2%nat ∧ all_in is_hex (group m 4)) ∧
    (length (group m 5) = 2%nat ∧ all_in is_hex (group m 5)))
    (re_finditer color_pattern content).
Proof.
  eapply Forall_impl; [apply finditer_from_within|].
  intros m (pre & mid & post & Hc & Hm). cbv beta.
  apply matches_color_groups in Hm as (He & Hrest).
  split; [by exists pre, mid, post|done].
Qed.

Lemma palette_entry_with_digits (idx mid : list ascii) :
  palette_entry_with idx mid → idx ≠ [] ∧ all_in is_digit idx.
Proof. intros (r & g & b & a & ws1 & ws2 & ws3 & ws4 & ws5 & _ & Hi & Hid & _). done. Qed.

Lemma finditer_color_groups (content : list ascii) :
  Forall (λ m,
    group m 1 ≠ [] ∧ all_in is_digit (group m 1) ∧
    (length (group m 2) = 2%nat ∧ all_in is_hex (group m 2)) ∧
    (length (group m 3) = 2%nat ∧ all_in is_hex (group m 3)) ∧
    (length (group m 4) = 2%nat ∧ all_in is_hex (group m 4)) ∧
    (length (group m 5) = 2%nat ∧ all_in is_hex (group m 5)))
    (re_finditer color_pattern content).
Proof.
  eapply Forall_impl; [apply finditer_color_within|].
  intros m ((pre & mid & post & _ & He) & Hrest). cbv beta.
  apply palette_entry_with_digits in He as [Hi Hid]. done.
Qed.

(** One turn of the palette loop: the entry is stored, unless its index has
    more digits than [int] converts. *)
Lemma palette_step_cases (m : rematch) (cs : gmap Z color) :
  group m 1 ≠ [] → all_in is_digit (group m 1) →
  length (group m 2) = 2%nat ∧ all_in is_hex (group m 2) →
  length (group m 3) = 2%nat ∧ all_in is_hex (group m 3) →
  length (group m 4) = 2%nat ∧ all_in is_hex (group m 4) →
  length (group m 5) = 2%nat ∧ all_in is_hex (group m 5) →
  palette_step m cs
  = if (int_max_str_digits <? length (group m 1))%nat
    then Raise (ValueError (limit_message (length (group m 1))))
    else Ok (<[(entry_of m).1 := (entry_of m).2]> cs).
Proof.
  intros Hi Hid [Hr Hrh] [Hg Hgh] [Hb Hbh] [Ha Hah]. unfold palette_step.
  rewrite (int_decimal_cases _ Hi Hid).
  destruct (int_max_str_digits <? length (group m 1))%nat; [done|]. cbn [rbind].
  rewrite (proj1 (int_hex_val _ Hr Hrh)), (proj1 (int_hex_val _ Hg Hgh)).
  rewrite (proj1 (int_hex_val _ Hb Hbh)), (proj1 (int_hex_val _ Ha Hah)).
  done.
Qed.

(** When no palette index passes the digit limit, the palette scan raises
    nothing: it folds the entries of the text into a dictionary. *)
Lemma palette_scan_ok (content : list ascii) :
  palette_indices_within_limit content →
  palette_scan content
  = Ok (foldl (λ cs e, <[e.1 := e.2]> cs) ∅ (palette_entries content)).
Proof.
  intros Hlim. unfold palette_scan, palette_entries. rewrite foldl_fmap.
  apply for_in_foldl.
  eapply Forall_impl; [apply finditer_color_within|].
  intros m ((pre & mid & post & Hc & He) & Hr & Hg & Hb & Ha) cs. cbv beta.
  pose proof (Hlim _ _ _ _ Hc He) as Hlen.
  apply palette_entry_with_digits in He as [Hi Hid].
  rewrite palette_step_cases by done.
  destruct (Nat.ltb_spec int_max_str_digits (length (group m 1))); [lia|done].
Qed.

(** A palette scan that raises nothing has folded the entries. *)
Lemma palette_scan_inv (content : list ascii) (palette : gmap Z color) :
  palette_scan content = Ok palette →
  palette = foldl (λ cs e, <[e.1 := e.2]> cs) ∅ (palette_entries content).
Proof.
  unfold palette_scan, palette_entries. rewrite foldl_fmap.
  apply for_in_foldl_inv.
  eapply Forall_impl; [apply finditer_color_groups|].
  intros m (Hi & Hid & Hr & Hg & Hb & Ha) cs r. cbv beta.
  rewrite palette_step_cases by done.
  destruct (int_max_str_digits <? length (group m 1))%nat; [done|]. by intros [= <-].
Qed.

(** The palette scan finds nothing when the palette pattern matches
    nowhere. *)
Lemma palette_scan_none (content : list ascii) :
  ¬ occurs color_pattern content → palette_scan content = Ok ∅.
Proof.
  intros Hno. unfold palette_scan, re_finditer. by rewrite finditer_from_none.
Qed.

(** ** What the searches find *)

Lemma search_field (label : string) (p : ascii → bool) (blk : list ascii) (m : rematch) :
  re_search (field_pattern label p) blk = Some m →
  ∃ pre mid post, blk = pre ++ mid ++ post ∧ field label p (group m 1) mid ∧
    m_start m = length pre ∧
    ∀ n', (n' < length pre)%nat → ¬ starts_at (field_pattern label p) blk n'.
Proof.
  intros H. apply re_search_Some in H as (pre & mid & post & -> & Hm & Hs & _ & Hfirst).
  apply matches_field_pattern in Hm as (value & Hf & Hg).
  rewrite (group_insert _ _ _ _ Hg). by exists pre, mid, post.
Qed.

Lemma search_array (content : list ascii) (m : rematch) :
  re_search bitmap_pattern content = Some m →
  ∃ pre mid post, content = pre ++ mid ++ post ∧
    array_decl (group m 1) (group m 2) mid ∧ m_start m = length pre ∧
    ∀ n', (n' < length pre)%nat → ¬ starts_at bitmap_pattern content n'.
Proof.
  intros H. apply re_search_Some in H as (pre & mid & post & -> & Hm & Hs & _ & Hfirst).
  apply matches_bitmap_pattern in Hm as (name & body & Hd & Hg).
  assert (group m 1 = name ∧ group m 2 = body) as [-> ->].
  { unfold group. rewrite Hg. by simplify_map_eq. }
  by exists pre, mid, post.
Qed.

(** ** Greedy groups at the end of a pattern *)

(** A pattern that ends in [(p+)]: the group takes the whole run of [p]. *)
Lemma match_at_last_plus (front : regex) (i : nat) (p : ascii → bool)
    (s : list ascii) (n : nat) (g : gmap nat (list ascii)) :
  match_at (Cat front (Cat (Group i (plus p)) Empty)) s = Some (n, g) →
  ∃ s1 v post c1,
    s = s1 ++ v ++ post ∧ matches front s1 ∅ c1 ∧ v ≠ [] ∧ all_in p v ∧
    (∀ ch, head post = Some ch → p ch = false) ∧ g = <[i := v]> c1.
Proof.
  unfold match_at. cbn [match_re plus]. intros H.
  apply match_re_sound in H as (s1 & s2 & c1 & -> & Hfront & H).
  apply rep_greedy_longest in H as (v & post & -> & Hv & Hlen & Hpost & Hk).
  2:{ intros s'. by eexists. }
  injection Hk as _ <-.
  rewrite length_app.
  replace (length v + length post - length post)%nat with (length v) by lia.
  rewrite take_app_length.
  exists s1, v, post, c1. repeat split; try done.
  intros ->. cbn in Hlen. lia.
Qed.

(** Concatenation associates: the field pattern is its label and equals
    sign followed by the group. *)
Lemma match_at_field_pattern (label : string) (p : ascii → bool) (s : list ascii) :
  match_at (field_pattern label p) s
  = match_at (Cat (seq_re [lit label; star is_space; lit "="; star is_space])
                  (Cat (Group 1 (plus p)) Empty)) s.
Proof. reflexivity. Qed.

(** [re.search] for a numeric field finds the first such field and captures
    all of its digits. *)
Lemma search_digits_field (label : string) (blk : list ascii) (m : rematch) :
  re_search (field_pattern label is_digit) blk = Some m →
  first_field_value label blk (decimal (group m 1)).
Proof.
  intros H. apply search_from_Some in H as (n & len & Hn & _ & _ & Hbefore & Hat).
  rewrite match_at_field_pattern in Hat.
  apply match_at_last_plus in Hat as (s1 & v & post & c1 & Hd & Hfront & Hv & Hvd & Hpost & Hg).
  invert_matches. rewrite app_nil_r in Hd.
  rewrite (group_insert _ _ _ _ Hg).
  match type of Hd with _ = (_ ++ ?w1 ++ _ ++ ?w2) ++ _ =>
    exists (take n blk), w1, w2, v, post
  end.
  rewrite length_take_le by done. repeat split; try done.
  - rewrite <- (take_drop n blk) at 1. rewrite Hd.
    by rewrite <- !app_assoc.
  - intros n' Hlt Hf. apply starts_at_field, starts_at_match_at in Hf as [_ [x Hx]].
    rewrite (Hbefore n' Hlt) in Hx. done.
Qed.

(** ** An array declaration is determined by where it starts *)

Lemma span_unique (p : ascii → bool) (a a' : list ascii) (x x' : ascii)
    (r r' : list ascii) :
  all_in p a → all_in p a' → p x = false → p x' = false →
  a ++ x :: r = a' ++ x' :: r' → a = a' ∧ x :: r = x' :: r'.
Proof.
  intros Ha. revert a'. induction Ha as [|c a Hc Ha IH]; intros a' Ha' Hx Hx' Heq.
  - destruct Ha' as [|c' a' Hc' Ha']; [done|].
    cbn in Heq. injection Heq as -> _. congruence.
  - destruct Ha' as [|c' a' Hc' Ha'].
    + cbn in Heq. injection Heq as <- _. congruence.
    + cbn in Heq. injection Heq as -> Heq.
      destruct (IH a' Ha' Hx Hx' Heq) as [-> Hr]. done.
Qed.

Lemma array_decl_unique (name name' body body' mid mid' rest rest' : list ascii) :
  array_decl name body mid → array_decl name' body' mid' →
  mid ++ rest = mid' ++ rest' → name = name' ∧ body = body'.
Proof.
  intros (ws1 & ws2 & -> & Hn & Hw & H1 & H2 & Hb & Hbb)
         (ws1' & ws2' & -> & Hn' & Hw' & H1' & H2' & Hb' & Hbb') Heq.
  assert (∀ (nm w1 w2 bd rs : list ascii),
            (nm ++ text "_map[]" ++ w1 ++ text "=" ++ w2 ++ text "{" ++ bd ++ text "}") ++ rs
            = (nm ++ text "_map") ++ "["%char ::
                ("]"%char :: w1) ++ "="%char :: w2 ++ "{"%char :: bd ++ "}"%char :: rs)
    as Hshape.
  { intros. cbn. repeat (rewrite <- app_assoc; cbn). done. }
  rewrite !Hshape in Heq.
  apply (span_unique is_word) in Heq as [Hnm Heq]; try done.
  2,3: apply Forall_app; split; [done|]; by repeat constructor.
  apply app_inv_tail in Hnm as ->. split; [done|].
  injection Heq as Heq.
  apply (span_unique is_space) in Heq as [_ Heq]; try done.
  injection Heq as Heq.
  apply (span_unique is_space) in Heq as [_ Heq]; try done.
  injection Heq as Heq.
  apply (span_unique (is_not "}")) in Heq as [Hbody _]; try done.
Qed.

Lemma all_in_forallb (p : ascii → bool) (s : list ascii) :
  forallb p s = true → all_in p s.
Proof.
  intros H. apply Forall_forall. intros ch Hin.
  apply list_elem_of_In in Hin. by eapply forallb_forall in H.
Qed.

(** ** The descriptor declaration *)

Lemma matches_desc_pattern (ident mid : list ascii) (g : gmap nat (list ascii)) :
  matches (desc_pattern ident) mid ∅ g ↔
  ∃ blk, desc_decl ident blk mid ∧ g = <[1%nat := blk]> ∅.
Proof.
  unfold desc_pattern. split.
  - intros H. invert_matches. eexists. split; [|reflexivity].
    eexists _, _. rewrite app_nil_r. repeat split; eauto.
  - intros (blk & (ws1 & ws2 & -> & H1 & H2 & Hb & Hbb) & ->). build_matches.
Qed.

Lemma starts_at_desc (ident content : list ascii) (n : nat) :
  starts_at (desc_pattern ident) content n ↔ desc_decl_at ident content n.
Proof.
  split.
  - intros (mid & rest & g & Hd & Hn & Hm).
    apply matches_desc_pattern in Hm as (blk & Ha & _). by exists blk, mid, rest.
  - intros (blk & mid & rest & Hd & Hn & Ha).
    exists mid, rest, (<[1%nat := blk]> ∅).
    split; [done|]. split; [done|]. apply matches_desc_pattern. by exists blk.
Qed.

Lemma occurs_desc (ident content : list ascii) :
  occurs (desc_pattern ident) content ↔ has_desc_decl ident content.
Proof.
  split.
  - intros (pre & mid & post & g & -> & Hm).
    apply matches_desc_pattern in Hm as (blk & Ha & _). by exists pre, blk, mid, post.
  - intros (pre & blk & mid & post & -> & Ha).
    exists pre, mid, post, (<[1%nat := blk]> ∅).
    split; [done|]. apply matches_desc_pattern. by exists blk.
Qed.

Lemma desc_decl_unique (ident blk blk' mid mid' rest rest' : list ascii) :
  desc_decl ident blk mid → desc_decl ident blk' mid' →
  mid ++ rest = mid' ++ rest' → blk = blk'.
Proof.
  intros (ws1 & ws2 & -> & H1 & H2 & Hb & Hbb)
         (ws1' & ws2' & -> & H1' & H2' & Hb' & Hbb') Heq.
  rewrite <- !app_assoc in Heq.
  apply app_inv_head in Heq. apply app_inv_head in Heq.
  cbn in Heq.
  apply (span_unique is_space) in Heq as [_ Heq]; try done.
  injection Heq as Heq.
  apply (span_unique is_space) in Heq as [_ Heq]; try done.
  injection Heq as Heq.
  apply (span_unique (is_not "}")) in Heq as [Hblk _]; try done.
Qed.

(** The array declaration that starts first is the one [re.search] finds. *)
Lemma search_first_array (content pre ident body mid post : list ascii) :
  content = pre ++ mid ++ post → array_decl ident body mid →
  (∀ n', (n' < length pre)%nat → ¬ array_decl_at content n') →
  ∃ bm, re_search bitmap_pattern content = Some bm ∧
    group bm 1 = ident ∧ group bm 2 = body.
Proof.
  intros -> Hdecl Hfirst.
  destruct (re_search_first bitmap_pattern (pre ++ mid ++ post) (length pre))
    as (bm & mid' & rest' & Hs & Hstart & Hd & Hm).
  { apply starts_at_array. exists ident, body, mid, post.
    rewrite drop_app_length. split; [done|]. split; [|done]. rewrite length_app. lia. }
  { intros n' Hlt Hst. apply (Hfirst n' Hlt). by apply starts_at_array. }
  rewrite drop_app_length in Hd.
  apply matches_bitmap_pattern in Hm as (ident' & body' & Hdecl' & Hg).
  destruct (array_decl_unique _ _ _ _ _ _ _ _ Hdecl Hdecl' Hd) as [<- <-].
  exists bm. split; [done|]. unfold group. rewrite Hg. by simplify_map_eq.
Qed.

(** The descriptor declaration that starts first is the one [re.search]
    finds. *)
Lemma search_first_desc (content ident pre blk mid post : list ascii) :
  content = pre ++ mid ++ post → desc_decl ident blk mid →
  (∀ n', (n' < length pre)%nat → ¬ desc_decl_at ident content n') →
  ∃ dm, re_search (desc_pattern ident) content = Some dm ∧ group dm 1 = blk.
Proof.
  intros -> Hdecl Hfirst.
  destruct (re_search_first (desc_pattern ident) (pre ++ mid ++ post) (length pre))
    as (dm & mid' & rest' & Hs & Hstart & Hd & Hm).
  { apply starts_at_desc. exists blk, mid, post.
    rewrite drop_app_length. split; [done|]. split; [|done]. rewrite length_app. lia. }
  { intros n' Hlt Hst. apply (Hfirst n' Hlt). by apply starts_at_desc. }
  rewrite drop_app_length in Hd.
  apply matches_desc_pattern in Hm as (blk' & Hdecl' & Hg).
  rewrite (desc_decl_unique _ _ _ _ _ _ _ Hdecl Hdecl' Hd).
  exists dm. split; [done|]. by apply (group_insert _ _ _ _ Hg).
Qed.

(** ** Fields of the descriptor block *)

(** [re.search] for a field finds the first such field and captures the
    whole run of its value. *)
Lemma search_field_run (label : string) (p : ascii → bool) (blk : list ascii)
    (m : rematch) :
  re_search (field_pattern label p) blk = Some m →
  first_field_run label p blk (group m 1).
Proof.
  intros H. apply search_from_Some in H as (n & len & Hn & _ & _ & Hbefore & Hat).
  rewrite match_at_field_pattern in Hat.
  apply match_at_last_plus in Hat as (s1 & v & post & c1 & Hd & Hfront & Hv & Hvd & Hpost & Hg).
  invert_matches. rewrite app_nil_r in Hd.
  rewrite (group_insert _ _ _ _ Hg).
  match type of Hd with _ = (_ ++ ?w1 ++ _ ++ ?w2) ++ _ =>
    exists (take n blk), w1, w2, post
  end.
  rewrite length_take_le by done. repeat split; try done.
  - rewrite <- (take_drop n blk) at 1. rewrite Hd.
    by rewrite <- !app_assoc.
  - intros n' Hlt Hf. apply starts_at_field, starts_at_match_at in Hf as [_ [x Hx]].
    rewrite (Hbefore n' Hlt) in Hx. done.
Qed.

Lemma run_unique (p : ascii → bool) (v v' post post' : list ascii) :
  all_in p v → all_in p v' →
  (∀ ch, head post = Some ch → p ch = false) →
  (∀ ch, head post' = Some ch → p ch = false) →
  v ++ post = v' ++ post' → v = v'.
Proof.
  intros Hv. revert v'. induction Hv as [|c v Hc Hv IH]; intros v' Hv' Hp Hp' Heq.
  - destruct Hv' as [|c' v' Hc' Hv']; [done|]. cbn in Heq. subst post.
    specialize (Hp c' eq_refl). congruence.
  - destruct Hv' as [|c' v' Hc' Hv'].
    + cbn in Heq. subst post'. specialize (Hp' c eq_refl). congruence.
    + cbn in Heq. injection Heq as -> Heq. f_equal. by apply IH.
Qed.

(** The first field of a block and its value are determined by the block. *)
Lemma first_field_run_unique (label : string) (p : ascii → bool)
    (blk v v' : list ascii) :
  (∀ ch, p ch = true → is_space ch = false) →
  first_field_run label p blk v → first_field_run label p blk v' → v = v'.
Proof.
  intros Hps (pre & ws1 & ws2 & post & Hb & H1 & H2 & Hv & Hvp & Hpost & Hfirst)
             (pre' & ws1' & ws2' & post' & Hb' & H1' & H2' & Hv' & Hvp' & Hpost' & Hfirst').
  assert (Hat : ∀ (q w1 w2 u r : list ascii),
            blk = q ++ text label ++ w1 ++ text "=" ++ w2 ++ u ++ r →
            all_in is_space w1 → all_in is_space w2 → u ≠ [] → all_in p u →
            field_at label p blk (length q)).
  { intros q w1 w2 u r -> Hw1 Hw2 Hu Hup.
    exists u, (text label ++ w1 ++ text "=" ++ w2 ++ u), r.
    rewrite drop_app_length. split; [by rewrite <- !app_assoc|].
    split; [rewrite length_app; lia|]. by exists w1, w2. }
  assert (length pre = length pre') as Hlen.
  { destruct (Nat.lt_trichotomy (length pre) (length pre')) as [Hlt|[->|Hgt]]; [|done|].
    - exfalso. apply (Hfirst' _ Hlt). by eapply Hat.
    - exfalso. apply (Hfirst _ Hgt). by eapply Hat. }
  rewrite Hb in Hb'. apply app_inj_1 in Hb' as [_ Heq]; [|done].
  apply app_inv_head in Heq. cbn in Heq.
  apply (span_unique is_space) in Heq as [_ Heq]; try done.
  injection Heq as Heq.
  destruct v as [|c v]; [done|]. destruct v' as [|c' v']; [done|].
  apply Forall_cons in Hvp as [Hc Hvp]. apply Forall_cons in Hvp' as [Hc' Hvp'].
  cbn in Heq.
  apply (span_unique is_space) in Heq as [_ Heq]; try done; try by apply Hps.
  injection Heq as -> Heq. f_equal. by apply (run_unique p v v' post post').
Qed.

Lemma first_field_value_run (label : string) (blk : list ascii) (z : Z) :
  first_field_value label blk z ↔
  ∃ digits, first_field_run label is_digit blk digits ∧ z = decimal digits.
Proof.
  split.
  - intros (pre & ws1 & ws2 & digits & post & Hb & H1 & H2 & Hd & Hdd & Hpost & Hfirst & ->).
    exists digits. split; [|done]. by exists pre, ws1, ws2, post.
  - intros (digits & (pre & ws1 & ws2 & post & Hb & H1 & H2 & Hd & Hdd & Hpost & Hfirst) & ->).
    by exists pre, ws1, ws2, digits, post.
Qed.

Lemma digit_not_space (ch : ascii) : is_digit ch = true → is_space ch = false.
Proof. destruct ch as [[] [] [] [] [] [] [] []]; vm_compute; congruence. Qed.

Lemma word_not_space (ch : ascii) : is_word ch = true → is_space ch = false.
Proof. destruct ch as [[] [] [] [] [] [] [] []]; vm_compute; congruence. Qed.

(** ** The extractor, case by case *)

(** What [parse_lvgl_c_file] returns, by the outcome of its palette scan,
    of its searches and of the conversion of the two dimensions. *)
Lemma parse_cases (content : list ascii) :
  match palette_scan content with
  | Raise e => parse_lvgl_c_file content = Raise e
  | Ok palette =>
      match re_search bitmap_pattern content with
      | None =>
          parse_lvgl_c_file content = Raise (ValueError "Could not find bitmap data array")
      | Some bitmap_match =>
          match re_search (desc_pattern (group bitmap_match 1)) content with
          | None =>
              parse_lvgl_c_file content
              = Raise (ValueError "Could not find image descriptor")
          | Some desc_match =>
              match re_search width_pattern (group desc_match 1),
                    re_search height_pattern (group desc_match 1) with
              | Some width_match, Some height_match =>
                  match int_ (group width_match 1) 10 with
                  | Raise e => parse_lvgl_c_file content = Raise e
                  | Ok w =>
                      match int_ (group height_match 1) 10 with
                      | Raise e => parse_lvgl_c_file content = Raise e
                      | Ok h =>
                          ∃ stream,
                            parse_lvgl_c_file content =
                              Ok {| name := group bitmap_match 1;
                                    width := w;
                                    height := h;
                                    color_format :=
                                      match re_search cf_pattern (group desc_match 1) with
                                      | Some cf_match => group cf_match 1
                                      | None => text "unknown"
                                      end;
                                    colors := palette;
                                    bitmap_data := stream |} ∧
                            mapM (λ val, int_ val 16)
                              (drop 8 (re_findall hex_pattern (group bitmap_match 2)))
                              = Ok stream ∧
                            length stream
                              = length (drop 8 (re_findall hex_pattern
                                                  (group bitmap_match 2))) ∧
                            Forall (λ v, 0 ≤ v < 256) stream
                      end
                  end
              | _, _ =>
                  parse_lvgl_c_file content
                  = Raise (ValueError "Could not find image dimensions")
              end
          end
      end
  end.
Proof.
  unfold parse_lvgl_c_file.
  change (for_in (re_finditer color_pattern content) _ ∅) with (palette_scan content).
  destruct (palette_scan content) as [palette|e]; [|done]. cbn [rbind].
  destruct (re_search bitmap_pattern content) as [bm|]; [|done].
  destruct (stream_ok (group bm 2)) as (stream & Hrun & Hmap & Hlen & Hrange).
  cbn [rbind] in Hrun.
  destruct (mapM (λ val, int_ val 16) (drop 8 (re_findall hex_pattern (group bm 2))))
    as [ints|e]; [|done].
  cbn [rbind] in Hrun |- *. injection Hmap as ->. rewrite Hrun. cbn [rbind].
  destruct (re_search (desc_pattern (group bm 1)) content) as [dm|]; [|done].
  destruct (re_search width_pattern (group dm 1)) as [wm|]; [|done].
  destruct (re_search height_pattern (group dm 1)) as [hm|]; [|done].
  destruct (int_ (group wm 1) 10) as [w|]; [|done]. cbn [rbind].
  destruct (int_ (group hm 1) 10) as [h|]; [|done]. cbn [rbind].
  by exists stream.
Qed.

(** The integer of a numeric field converts when the field is within the
    digit limit, and only then. *)
Lemma field_int_ok (label : string) (blk : list ascii) (m : rematch) :
  re_search (field_pattern label is_digit) blk = Some m →
  field_within_limit label blk →
  int_ (group m 1) 10 = Ok (decimal (group m 1)).
Proof.
  intros Hm Hlim. apply search_field_run in Hm.
  pose proof (Hlim _ Hm) as Hlen.
  destruct Hm as (_ & _ & _ & _ & _ & _ & _ & Hv & Hvd & _).
  by apply int_decimal.
Qed.

Lemma field_int_inv (label : string) (blk : list ascii) (m : rematch) (v : Z) :
  re_search (field_pattern label is_digit) blk = Some m →
  int_ (group m 1) 10 = Ok v →
  v = decimal (group m 1) ∧ field_within_limit label blk.
Proof.
  intros Hm Hint. apply search_field_run in Hm.
  assert (group m 1 ≠ [] ∧ all_in is_digit (group m 1)) as [Hv Hvd].
  { by destruct Hm as (_ & _ & _ & _ & _ & _ & _ & Hv & Hvd & _). }
  destruct (int_decimal_inv _ _ Hv Hvd Hint) as [-> Hlen]. split; [done|].
  intros digits Hrun.
  by rewrite (first_field_run_unique _ _ _ _ _ digit_not_space Hrun Hm).
Qed.

Lemma field_int_long (label : string) (blk digits : list ascii) (m : rematch) :
  re_search (field_pattern label is_digit) blk = Some m →
  first_field_run label is_digit blk digits →
  (int_max_str_digits < length digits)%nat →
  int_ (group m 1) 10 = Raise (ValueError (limit_message (length digits))).
Proof.
  intros Hm Hrun Hlen. apply search_field_run in Hm.
  rewrite <- (first_field_run_unique _ _ _ _ _ digit_not_space Hrun Hm).
  apply int_decimal_long; [|done].
  by destruct Hrun as (_ & _ & _ & _ & _ & _ & _ & Hv & Hvd & _).
Qed.

(** A first field of the block is what [re.search] finds. *)
Lemma search_first_field (label : string) (p : ascii → bool) (blk v : list ascii) :
  (∀ ch, p ch = true → is_space ch = false) →
  first_field_run label p blk v →
  ∃ m, re_search (field_pattern label p) blk = Some m ∧ group m 1 = v.
Proof.
  intros Hps Hrun.
  assert (occurs (field_pattern label p) blk) as Ho.
  { destruct Hrun as (q & w1 & w2 & r & -> & H1 & H2 & Hd & Hdd & _).
    apply occurs_field. exists q, v, (text label ++ w1 ++ text "=" ++ w2 ++ v), r.
    split; [by rewrite <- !app_assoc|]. by exists w1, w2. }
  apply re_search_is_Some in Ho as [m Hm]. exists m. split; [done|].
  eapply first_field_run_unique; [exact Hps| |done].
  by apply search_field_run.
Qed.

(** The extraction succeeds when the palette and the two dimensions are
    within the digit limit and every search finds its match. *)
Lemma parse_ok (content : list ascii) (bm dm wm hm : rematch) :
  palette_indices_within_limit content →
  re_search bitmap_pattern content = Some bm →
  re_search (desc_pattern (group bm 1)) content = Some dm →
  re_search width_pattern (group dm 1) = Some wm →
  re_search height_pattern (group dm 1) = Some hm →
  field_within_limit ".w" (group dm 1) → field_within_limit ".h" (group dm 1) →
  ∃ stream,
    parse_lvgl_c_file content =
      Ok {| name := group bm 1;
            width := decimal (group wm 1);
            height := decimal (group hm 1);
            color_format :=
              match re_search cf_pattern (group dm 1) with
              | Some cf_match => group cf_match 1
              | None => text "unknown"
              end;
            colors := foldl (λ cs e, <[e.1 := e.2]> cs) ∅ (palette_entries content);
            bitmap_data := stream |} ∧
    mapM (λ val, int_ val 16) (drop 8 (re_findall hex_pattern (group bm 2))) = Ok stream ∧
    length stream = length (drop 8 (re_findall hex_pattern (group bm 2))) ∧
    Forall (λ v, 0 ≤ v < 256) stream.
Proof.
  intros Hpal Hbm Hdm Hwm Hhm Hw Hh. pose proof (parse_cases content) as H.
  rewrite (palette_scan_ok content Hpal), Hbm, Hdm, Hwm, Hhm in H.
  by rewrite (field_int_ok _ _ _ Hwm Hw), (field_int_ok _ _ _ Hhm Hh) in H.
Qed.

(** What a successful extraction has found. *)
Lemma parse_inv (content : list ascii) (info : bitmap_info) :
  parse_lvgl_c_file content = Ok info →
  ∃ bm dm wm hm,
    re_search bitmap_pattern content = Some bm ∧
    re_search (desc_pattern (group bm 1)) content = Some dm ∧
    re_search width_pattern (group dm 1) = Some wm ∧
    re_search height_pattern (group dm 1) = Some hm ∧
    info = {| name := group bm 1;
              width := decimal (group wm 1);
              height := decimal (group hm 1);
              color_format :=
                match re_search cf_pattern (group dm 1) with
                | Some cf_match => group cf_match 1
                | None => text "unknown"
                end;
              colors := foldl (λ cs e, <[e.1 := e.2]> cs) ∅ (palette_entries content);
              bitmap_data := bitmap_data info |} ∧
    mapM (λ val, int_ val 16) (drop 8 (re_findall hex_pattern (group bm 2)))
      = Ok (bitmap_data info) ∧
    length (bitmap_data info) = length (drop 8 (re_findall hex_pattern (group bm 2))) ∧
    Forall (λ v, 0 ≤ v < 256) (bitmap_data info) ∧
    field_within_limit ".w" (group dm 1) ∧ field_within_limit ".h" (group dm 1).
Proof.
  intros Hp. pose proof (parse_cases content) as H.
  destruct (palette_scan content) as [palette|e] eqn:Hpal; [|congruence].
  apply palette_scan_inv in Hpal as ->.
  destruct (re_search bitmap_pattern content) as [bm|] eqn:Hbm; [|congruence].
  destruct (re_search (desc_pattern (group bm 1)) content) as [dm|] eqn:Hdm; [|congruence].
  destruct (re_search width_pattern (group dm 1)) as [wm|] eqn:Hwm; [|congruence].
  destruct (re_search height_pattern (group dm 1)) as [hm|] eqn:Hhm; [|congruence].
  destruct (int_ (group wm 1) 10) as [w|] eqn:Hw; [|congruence].
  destruct (int_ (group hm 1) 10) as [h|] eqn:Hh; [|congruence].
  destruct H as (stream & Hq & Hmap & Hlen & Hrange).
  rewrite Hq in Hp. injection Hp as <-. cbn [bitmap_data].
  destruct (field_int_inv _ _ _ _ Hwm Hw) as [-> Hwl].
  destruct (field_int_inv _ _ _ _ Hhm Hh) as [-> Hhl].
  by exists bm, dm, wm, hm.
Qed.


Lemma parse_no_descriptor (content : list ascii) (bm : rematch) :
  palette_indices_within_limit content → re_search bitmap_pattern content = Some bm →
  re_search (desc_pattern (group bm 1)) content = None →
  parse_lvgl_c_file content = Raise (ValueError "Could not find image descriptor").
Proof.
  intros Hpal Hbm Hdm. pose proof (parse_cases content) as H.
  by rewrite (palette_scan_ok content Hpal), Hbm, Hdm in H.
Qed.

Lemma parse_no_dimensions (content : list ascii) (bm dm : rematch) :
  palette_indices_within_limit content → re_search bitmap_pattern content = Some bm →
  re_search (desc_pattern (group bm 1)) content = Some dm →
  re_search width_pattern (group dm 1) = None
  ∨ re_search height_pattern (group dm 1) = None →
  parse_lvgl_c_file content = Raise (ValueError "Could not find image dimensions").
Proof.
  intros Hpal Hbm Hdm Hno. pose proof (parse_cases content) as H.
  rewrite (palette_scan_ok content Hpal), Hbm, Hdm in H.
  destruct Hno as [Hno|Hno]; rewrite Hno in H; [done|].
  by destruct (re_search width_pattern (group dm 1)).
Qed.


(** ** Texts within the digit limit *)



(** Nor has a text that is itself no longer than the limit. *)
Lemma short_text_within_limit (content : list ascii) :
  (length content ≤ int_max_str_digits)%nat → palette_indices_within_limit content.
Proof.
  intros Hlen pre idx mid post -> (r & g & b & a & ws1 & ws2 & ws3 & ws4 & ws5 & -> & _).
  rewrite !length_app in Hlen. lia.
Qed.

Lemma short_block_within_limit (label : string) (blk : list ascii) :
  (length blk ≤ int_max_str_digits)%nat → field_within_limit label blk.
Proof.
  intros Hlen digits (pre & ws1 & ws2 & post & -> & _).
  rewrite !length_app in Hlen. lia.
Qed.



(** ** The command after a failed extraction *)


(** ** The extractor's claims *)

(** C3, as the code has it: whenever extraction succeeds, the packed stream
    holds the hex byte literals of the first array's body after the eighth,
    so its length is [max 0 (n - 8)] for [n] literals: [n - 8] from eight
    literals on, and 0 below; and the step that drops eight literals and
    converts the rest raises nothing, whatever the array body and so
    whatever the number of literals. *)
Theorem C3_stream_length (content : list ascii) :
  (∀ info, parse_lvgl_c_file content = Ok info →
     ∃ bitmap_match,
       re_search bitmap_pattern content = Some bitmap_match ∧
       Z.of_nat (length (bitmap_data info))
         = Z.max 0 (Z.of_nat (length (re_findall hex_pattern (group bitmap_match 2))) - 8))
  ∧ (∀ body, ∃ stream,
       (ints ←! mapM (λ val, int_ val 16) (drop 8 (re_findall hex_pattern body));
        bytes_ ints) = Ok stream ∧
       Z.of_nat (length stream)
         = Z.max 0 (Z.of_nat (length (re_findall hex_pattern body)) - 8)).
Proof.
  split.
  - intros info Hp.
    apply parse_inv in Hp as (bm & dm & wm & hm & Hbm & _ & _ & _ & _ & _ & Hlen & _).
    exists bm. split; [done|]. rewrite Hlen, length_drop. lia.
  - intros body. destruct (stream_ok body) as (stream & Hrun & _ & Hlen & _).
    exists stream. split; [done|]. rewrite Hlen, length_drop. lia.
Qed.

Lemma C3_stream_length_witness :
  ∃ bitmap_match,
    re_search bitmap_pattern tiny = Some bitmap_match ∧
    Z.of_nat (length (bitmap_data tiny_info))
      = Z.max 0 (Z.of_nat (length (re_findall hex_pattern (group bitmap_match 2))) - 8).
Proof. apply (proj1 (C3_stream_length tiny) tiny_info). vm_compute. reflexivity. Defined.

(** C3 as stated fails: the array of [tiny] holds three hex byte literals,
    extraction succeeds with an empty stream, and 0 is not 3 - 8. *)
Lemma C3_counterexample :
  ∃ info bitmap_match,
    parse_lvgl_c_file tiny = Ok info ∧
    re_search bitmap_pattern tiny = Some bitmap_match ∧
    length (re_findall hex_pattern (group bitmap_match 2)) = 3%nat ∧
    Z.of_nat (length (bitmap_data info))
      ≠ Z.of_nat (length (re_findall hex_pattern (group bitmap_match 2))) - 8.
Proof.
  eexists _, _. split; [vm_compute; reflexivity|].
  split; [vm_compute; reflexivity|].
  split; [vm_compute; reflexivity|]. vm_compute. discriminate.
Qed.




(** C6, as the code has it: when no palette index has more digits than
    [int] converts, and the descriptor block has its [.w] and [.h] fields,
    both within the digit limit, and no [.cf] field, extraction succeeds and
    the color format is the string ["unknown"]; when the block lacks the
    [.w] field or the [.h] field, extraction raises its dimensions error. *)
Theorem C6_color_format (content blk : list ascii) :
  descriptor_block content blk → palette_indices_within_limit content →
  (has_field ".w" is_digit blk → has_field ".h" is_digit blk →
   ¬ has_field ".cf" is_word blk →
   field_within_limit ".w" blk → field_within_limit ".h" blk →
     ∃ info, parse_lvgl_c_file content = Ok info ∧ color_format info = text "unknown")
  ∧ (¬ has_field ".w" is_digit blk ∨ ¬ has_field ".h" is_digit blk →
     parse_lvgl_c_file content = Raise (ValueError "Could not find image dimensions")).
Proof.
  intros (bm & dm & Hbm & Hdm & ->) Hpal. split.
  - intros Hw Hh Hcf Hwl Hhl.
    apply occurs_field, re_search_is_Some in Hw as [wm Hwm].
    apply occurs_field, re_search_is_Some in Hh as [hm Hhm].
    rewrite <- occurs_field, <- re_search_None in Hcf.
    destruct (parse_ok content bm dm wm hm Hpal Hbm Hdm Hwm Hhm Hwl Hhl)
      as (stream & Hq & _).
    unfold cf_pattern in Hq. rewrite Hcf in Hq. eexists. split; [done|]. done.
  - intros Hno. apply (parse_no_dimensions content bm dm Hpal Hbm Hdm).
    unfold width_pattern, height_pattern.
    destruct Hno as [Hno|Hno]; rewrite <- occurs_field, <- re_search_None in Hno; auto.
Qed.

Lemma C6_color_format_witness :
  (∃ info, parse_lvgl_c_file no_cf = Ok info ∧ color_format info = text "unknown")
  ∧ parse_lvgl_c_file no_height = Raise (ValueError "Could not find image dimensions").
Proof.
  split.
  - apply (proj1 (C6_color_format no_cf no_cf_block
                    ltac:(eexists _, _; split; [vm_compute; reflexivity|];
                          split; vm_compute; reflexivity)
                    ltac:(apply short_text_within_limit, Nat.leb_le;
                          vm_compute; reflexivity))).
    + apply occurs_field, re_search_is_Some. vm_compute. by eexists.
    + apply occurs_field, re_search_is_Some. vm_compute. by eexists.
    + rewrite <- occurs_field, <- re_search_None. vm_compute. reflexivity.
    + apply short_block_within_limit, Nat.leb_le. vm_compute. reflexivity.
    + apply short_block_within_limit, Nat.leb_le. vm_compute. reflexivity.
  - apply (proj2 (C6_color_format no_height no_height_block
                    ltac:(eexists _, _; split; [vm_compute; reflexivity|];
                          split; vm_compute; reflexivity)
                    ltac:(apply short_text_within_limit, Nat.leb_le;
                          vm_compute; reflexivity))).
    right. rewrite <- occurs_field, <- re_search_None. vm_compute. reflexivity.
Defined.

(** C6 as stated fails: the descriptor block of [long_width] has its [.w]
    and [.h] fields and no [.cf] field, and the extraction raises the
    [ValueError] of the digit limit at the width of 4301 digits. *)
Lemma C6_counterexample :
  descriptor_block long_width long_width_block ∧
  has_field ".w" is_digit long_width_block ∧
  has_field ".h" is_digit long_width_block ∧
  ¬ has_field ".cf" is_word long_width_block ∧
  parse_lvgl_c_file long_width = Raise (ValueError (limit_message 4301)).
Proof.
  split; [|split; [|split; [|split]]].
  - eexists _, _. split; [vm_compute; reflexivity|].
    split; vm_compute; reflexivity.
  - apply occurs_field, re_search_is_Some. vm_compute. by eexists.
  - apply occurs_field, re_search_is_Some. vm_compute. by eexists.
  - rewrite <- occurs_field, <- re_search_None. vm_compute. reflexivity.
  - vm_compute. reflexivity.
Qed.

(** C7: when extraction succeeds, the descriptor's width and height are the
    values of the decimal integers written in the first [.w] and the first
    [.h] field of the descriptor block, every digit of them and nothing
    added or taken away. *)
Theorem C7_dimensions (content : list ascii) (info : bitmap_info) :
  parse_lvgl_c_file content = Ok info →
  ∃ blk, descriptor_block content blk ∧
    first_field_value ".w" blk (width info) ∧
    first_field_value ".h" blk (height info).
Proof.
  intros Hp.
  apply parse_inv in Hp as (bm & dm & wm & hm & Hbm & Hdm & Hwm & Hhm & -> & _).
  exists (group dm 1). split; [by exists bm, dm|]. cbn [width height].
  split; by apply search_digits_field.
Qed.

Lemma C7_dimensions_witness :
  ∃ blk, descriptor_block no_cf blk ∧
    first_field_value ".w" blk 140 ∧ first_field_value ".h" blk 68.
Proof. apply (C7_dimensions no_cf no_cf_info). vm_compute. reflexivity. Defined.




(** ** The extractor and the decoder on the sample texts *)

Example parse_sample :
  parse_lvgl_c_file sample
  = Ok {| name := text "layers2"; width := 8; height := 2;
          color_format := text "LV_IMG_CF_INDEXED_1BIT";
          colors := <[1 := black]> (<[0 := white]> ∅);
          bitmap_data := [176; 15] |}.
Proof. vm_compute. reflexivity. Qed.

Example main_sample :
  main_cli (λ _, Some sample) (λ _, true) (λ _, true)
    {| input_file := text "icons/layers2.c"; output := None |}
  = {| saved :=
         Some (text "layers2.png",
               {| im_width := 8; im_height := 2;
                  im_rows :=
                    [[black; white; black; black; white; white; white; white];
                     [white; white; white; white; black; black; black; black]] |});
       status := 0 |}.
Proof. vm_compute. reflexivity. Qed.

Example parse_two_arrays : parse_lvgl_c_file two_arrays = Ok two_arrays_info.
Proof. vm_compute. reflexivity. Qed.

Example main_no_array :
  main_cli (λ _, Some no_array) (λ _, true) (λ _, true)
    {| input_file := text "icon.c"; output := None |}
  = {| saved := None; status := 1 |}.
Proof. vm_compute. reflexivity. Qed.

(** A width of 0 is extracted, and the image without pixels is refused
    when it is saved. *)
Example main_empty_image :
  main_cli (λ _, Some (text
"const uint8_t z_map[] = { 0xff,0xff,0xff,0xff, 0x00,0x00,0x00,0xff, 0xb0 };
const lv_img_dsc_t z = { .header.w = 0, .header.h = 3 };")) (λ _, true) (λ _, true)
    {| input_file := text "z.c"; output := None |}
  = {| saved := None; status := 1 |}.
Proof. vm_compute. reflexivity. Qed.

(** The identifier group gives characters back until [_map[]] fits. *)
Example search_backtracks :
  (λ m, (m_start m, group m 1, group m 2))
    <$> re_search bitmap_pattern (text "x = a_map_map[]={1}")
  = Some (4%nat, text "a_map", text "1").
Proof. vm_compute. reflexivity. Qed.

(** The byte pattern passes over what is not [0x] and two hex digits. *)
Example findall_hex_sample :
  re_findall hex_pattern (text "0x123 0xZZ 0xab0xCD") = [text "12"; text "ab"; text "CD"].
Proof. vm_compute. reflexivity. Qed.

(** The unmapped-index case: with index 0 alone in the palette, the set bits
    of the byte come out opaque black. *)
Example unmapped_index :
  convert_1bit_indexed_to_png
    {| name := text "row"; width := 8; height := 1; color_format := text "unknown";
       colors := <[0 := white]> ∅; bitmap_data := [176] |}
  = Ok {| im_width := 8; im_height := 1;
          im_rows := [[black; white; black; black; white; white; white; white]] |}.
Proof. vm_compute. reflexivity. Qed.

(** ** What a successful extraction returns *)

Lemma parse_palette (content : list ascii) (info : bitmap_info) :
  parse_lvgl_c_file content = Ok info →
  colors info = foldl (λ cs e, <[e.1 := e.2]> cs) ∅ (palette_entries content).
Proof.
  intros Hp. apply parse_inv in Hp as (bm & dm & wm & hm & _ & _ & _ & _ & -> & _).
  done.
Qed.

Lemma foldl_insert_last (entries : list (Z * color)) (k : Z) :
  foldl (λ (cs : gmap Z color) e, <[e.1 := e.2]> cs) ∅ entries !! k
  = snd <$> last (filter (λ e, e.1 = k) entries).
Proof.
  induction entries as [|e entries IH] using rev_ind; [done|].
  rewrite foldl_app, filter_app. cbn [foldl].
  destruct (decide (e.1 = k)) as [He|He].
  - rewrite He, lookup_insert_eq.
    rewrite filter_cons_True by done. rewrite filter_nil, last_snoc. done.
  - rewrite lookup_insert_ne by done. rewrite IH.
    rewrite filter_cons_False by done. by rewrite filter_nil, app_nil_r.
Qed.

Lemma foldl_insert_Forall (P : Z → color → Prop) (entries : list (Z * color))
    (m : gmap Z color) :
  map_Forall P m → Forall (λ e, P e.1 e.2) entries →
  map_Forall P (foldl (λ cs e, <[e.1 := e.2]> cs) m entries).
Proof.
  intros Hm H. revert m Hm. induction H as [|e es He _ IH]; intros m Hm; cbn; [done|].
  apply IH. by apply map_Forall_insert_2.
Qed.

Lemma parse_info_wf (content : list ascii) (info : bitmap_info) :
  parse_lvgl_c_file content = Ok info → wf_info info.
Proof.
  intros Hp.
  apply parse_inv in Hp
    as (bm & dm & wm & hm & Hbm & Hdm & Hwm & Hhm & Hi & _ & _ & Hbytes & _).
  rewrite Hi.
  apply search_array in Hbm as (_ & _ & _ & _ & (_ & _ & _ & Hn & Hnw & _) & _).
  apply search_field in Hwm as (_ & _ & _ & _ & (_ & _ & _ & _ & _ & _ & Hwd) & _).
  apply search_field in Hhm as (_ & _ & _ & _ & (_ & _ & _ & _ & _ & _ & Hhd) & _).
  unfold wf_info. cbn [name width height color_format colors bitmap_data].
  split; [done|]. split; [done|].
  split; [by apply decimal_nonneg|]. split; [by apply decimal_nonneg|].
  assert (Hcf : ∀ cf : list ascii,
            cf = match re_search cf_pattern (group dm 1) with
                 | Some cf_match => group cf_match 1
                 | None => text "unknown"
                 end → cf ≠ [] ∧ all_in is_word cf).
  { intros cf ->. destruct (re_search cf_pattern (group dm 1)) as [cm|] eqn:Hcm.
    - apply search_field in Hcm as (_ & _ & _ & _ & (_ & _ & _ & _ & _ & Hv & Hvw) & _).
      done.
    - split; [done|]. apply all_in_forallb. vm_compute. reflexivity. }
  destruct (Hcf _ eq_refl) as [Hc1 Hc2].
  split; [done|]. split; [done|]. split; [done|].
  apply foldl_insert_Forall; [apply map_Forall_empty|].
  unfold palette_entries. apply Forall_fmap.
  eapply Forall_impl; [apply finditer_color_groups|].
  intros m (Hidx & Hid & [Hr Hrh] & [Hg Hgh] & [Hb Hbh] & [Ha Hah]). cbn.
  split; [by apply decimal_nonneg|].
  repeat split; by apply int_hex_val.
Qed.

(** Every descriptor the extractor returns is well formed: a name and a
    color format that are non-empty runs of word characters, a width and a
    height that are not negative, stream bytes and palette channels between
    0 and 255, palette indices that are not negative. *)
Theorem extract_well_formed (content : list ascii) (info : bitmap_info) :
  parse_lvgl_c_file content = Ok info → wf_info info.
Proof. apply parse_info_wf. Qed.

Lemma extract_well_formed_witness :
  wf_info {| name := text "layers2"; width := 8; height := 2;
             color_format := text "LV_IMG_CF_INDEXED_1BIT";
             colors := <[1 := black]> (<[0 := white]> ∅);
             bitmap_data := [176; 15] |}.
Proof. apply (extract_well_formed sample). vm_compute. reflexivity. Defined.

(** The decoder accepts what the extractor returns whenever the extracted
    width and height are positive and of a size the imaging library takes:
    then it raises nothing, its image has the extracted width and height,
    every pixel of it holding the color the stream and the palette give,
    and [img.save] does not refuse the image. *)
Theorem extract_then_decode (content : list ascii) (info : bitmap_info) :
  parse_lvgl_c_file content = Ok info →
  0 < width info ≤ max_width → 0 < height info ≤ INT_MAX →
  ∃ img, convert_1bit_indexed_to_png info = Ok img ∧
    img_save img = Ok img ∧
    wf_image (width info) (height info) img ∧
    (∀ x y, 0 ≤ x < width info → 0 ≤ y < height info →
       getpixel img x y = Some (pixel_color info x y)).
Proof.
  intros Hp Hw Hh.
  destruct (decode_spec info) as (img & Hrun & Hwf & Hpix); [lia..|].
  exists img. split; [done|]. split; [|done].
  apply (img_save_ok _ _ _ Hwf); lia.
Qed.

Lemma extract_then_decode_witness :
  ∃ img, convert_1bit_indexed_to_png tiny_info = Ok img ∧
    img_save img = Ok img ∧
    wf_image 8 1 img ∧
    (∀ x y, 0 ≤ x < 8 → 0 ≤ y < 1 →
       getpixel img x y = Some (pixel_color tiny_info x y)).
Proof.
  apply (extract_then_decode tiny tiny_info);
    [vm_compute; reflexivity | vm_compute; intuition congruence..].
Defined.

(** A palette index that several entries of the text give keeps the color
    of the last of them, and an index no entry gives has no color. *)
Theorem palette_last_entry_wins (content : list ascii) (info : bitmap_info) (k : Z) :
  parse_lvgl_c_file content = Ok info →
  colors info !! k = snd <$> last (filter (λ e, e.1 = k) (palette_entries content)).
Proof. intros Hp. rewrite (parse_palette content info Hp). apply foldl_insert_last. Qed.

Lemma palette_last_entry_wins_witness :
  colors twice_index_0_info !! 0
  = snd <$> last (filter (λ e, e.1 = 0) (palette_entries twice_index_0)).
Proof.
  apply (palette_last_entry_wins twice_index_0 twice_index_0_info 0).
  vm_compute. reflexivity.
Defined.

Example palette_entries_twice :
  palette_entries twice_index_0
  = [(0, (17, 34, 51, 255)); (0, (170, 187, 204, 255))].
Proof. vm_compute. reflexivity. Qed.

(** ** The descriptor the fields are read from *)

(** When no palette index has more digits than [int] converts, the array
    declaration that starts first is for [ident] and the text has no
    descriptor declaration [const lv_img_dsc_t ident = { ... }], the
    extractor raises its descriptor error, whatever other descriptors the
    text holds. *)
Theorem missing_descriptor (content pre ident body mid post : list ascii) :
  palette_indices_within_limit content →
  content = pre ++ mid ++ post → array_decl ident body mid →
  (∀ n', (n' < length pre)%nat → ¬ array_decl_at content n') →
  ¬ has_desc_decl ident content →
  parse_lvgl_c_file content = Raise (ValueError "Could not find image descriptor").
Proof.
  intros Hpal Hc Hdecl Hfirst Hno.
  destruct (search_first_array _ _ _ _ _ _ Hc Hdecl Hfirst) as (bm & Hbm & G1 & _).
  apply (parse_no_descriptor content bm Hpal Hbm). rewrite G1.
  by rewrite <- occurs_desc, <- re_search_None in Hno.
Qed.

Lemma missing_descriptor_witness :
  parse_lvgl_c_file no_descriptor = Raise (ValueError "Could not find image descriptor").
Proof.
  apply (missing_descriptor no_descriptor (text "const uint8_t ") (text "icon")
           (text " 0xff,0xff,0xff,0xff, 0x00,0x00,0x00,0xff, 0xb0 ")
           (text "icon_map[] = { 0xff,0xff,0xff,0xff, 0x00,0x00,0x00,0xff, 0xb0 }")
           (drop 77 no_descriptor)).
  - apply short_text_within_limit, Nat.leb_le. vm_compute. reflexivity.
  - vm_compute. reflexivity.
  - exists (text " "), (text " "). split; [vm_compute; reflexivity|].
    repeat split; try done; apply all_in_forallb; vm_compute; reflexivity.
  - assert (∃ m, re_search bitmap_pattern no_descriptor = Some m ∧ m_start m = 14%nat)
      as (m & Hm & Hst).
    { eexists. split; vm_compute; reflexivity. }
    apply re_search_Some in Hm as (pre' & _ & _ & _ & _ & Hstart & _ & Hfirst).
    intros n' Hlt Hd. apply (Hfirst n').
    + rewrite <- Hstart, Hst. exact Hlt.
    + by apply starts_at_array.
  - rewrite <- occurs_desc, <- re_search_None. vm_compute. reflexivity.
Defined.

(** The block the extractor reads the fields from is the braces' content of
    the first descriptor declaration named after the first array. *)
Theorem descriptor_block_first
    (content pre ident body mid post dpre blk dmid dpost : list ascii) :
  content = pre ++ mid ++ post → array_decl ident body mid →
  (∀ n', (n' < length pre)%nat → ¬ array_decl_at content n') →
  content = dpre ++ dmid ++ dpost → desc_decl ident blk dmid →
  (∀ n', (n' < length dpre)%nat → ¬ desc_decl_at ident content n') →
  ∀ blk', descriptor_block content blk' ↔ blk' = blk.
Proof.
  intros Hc Hdecl Hfirst Hdc Hddecl Hdfirst blk'.
  destruct (search_first_array _ _ _ _ _ _ Hc Hdecl Hfirst) as (bm & Hbm & G1 & _).
  destruct (search_first_desc _ _ _ _ _ _ Hdc Hddecl Hdfirst) as (dm & Hdm & G).
  split.
  - intros (bm' & dm' & Hbm' & Hdm' & ->).
    rewrite Hbm in Hbm'. injection Hbm' as <-. rewrite G1, Hdm in Hdm'.
    injection Hdm' as <-. done.
  - intros ->. exists bm, dm. rewrite G1. done.
Qed.

(** An extraction succeeds with the identifier of the first array as name
    and the integers of the first [.w] and [.h] fields as width and height,
    whenever the text has an array declaration, a descriptor declaration
    named after the first of them, and both fields in the first such
    descriptor's block, and neither these fields nor a palette index has
    more digits than [int] converts. *)
Theorem extract_declared
    (content pre ident body mid post dpre blk dmid dpost : list ascii) (w h : Z) :
  palette_indices_within_limit content →
  content = pre ++ mid ++ post → array_decl ident body mid →
  (∀ n', (n' < length pre)%nat → ¬ array_decl_at content n') →
  content = dpre ++ dmid ++ dpost → desc_decl ident blk dmid →
  (∀ n', (n' < length dpre)%nat → ¬ desc_decl_at ident content n') →
  first_field_value ".w" blk w → first_field_value ".h" blk h →
  field_within_limit ".w" blk → field_within_limit ".h" blk →
  ∃ info, parse_lvgl_c_file content = Ok info ∧
    name info = ident ∧ width info = w ∧ height info = h ∧
    mapM (λ val, int_ val 16) (drop 8 (re_findall hex_pattern body))
      = Ok (bitmap_data info).
Proof.
  intros Hpal Hc Hdecl Hfirst Hdc Hddecl Hdfirst Hw Hh Hwl Hhl.
  destruct (search_first_array _ _ _ _ _ _ Hc Hdecl Hfirst) as (bm & Hbm & G1 & G2).
  destruct (search_first_desc _ _ _ _ _ _ Hdc Hddecl Hdfirst) as (dm & Hdm & G).
  apply first_field_value_run in Hw as (dw & Hw & ->).
  apply first_field_value_run in Hh as (dh & Hh & ->).
  destruct (search_first_field _ _ _ _ digit_not_space Hw) as (wm & Hwm & Gw).
  destruct (search_first_field _ _ _ _ digit_not_space Hh) as (hm & Hhm & Gh).
  rewrite <- G1 in Hdm. rewrite <- G in Hwm, Hhm, Hwl, Hhl.
  destruct (parse_ok content bm dm wm hm Hpal Hbm Hdm Hwm Hhm Hwl Hhl)
    as (stream & Hq & Hmap & _).
  eexists. split; [exact Hq|]. cbn [name width height bitmap_data].
  rewrite G1, Gw, Gh. by rewrite G2 in Hmap.
Qed.

(** When the descriptor block has a [.cf] field, the color format of a
    successful extraction is the identifier written in the first of them,
    every character of it. *)
Theorem color_format_first_cf (content blk : list ascii) (info : bitmap_info) :
  parse_lvgl_c_file content = Ok info → descriptor_block content blk →
  has_field ".cf" is_word blk →
  first_field_run ".cf" is_word blk (color_format info).
Proof.
  intros Hp (bm & dm & Hbm & Hdm & ->) Hcf.
  apply parse_inv in Hp as (bm' & dm' & wm & hm & Hbm' & Hdm' & _ & _ & -> & _).
  rewrite Hbm in Hbm'. injection Hbm' as <-.
  rewrite Hdm in Hdm'. injection Hdm' as <-.
  apply occurs_field, re_search_is_Some in Hcf as [cm Hcm].
  unfold cf_pattern. rewrite Hcm.
  cbn [color_format]. by apply search_field_run.
Qed.

Lemma color_format_first_cf_witness :
  first_field_run ".cf" is_word with_cf_block (color_format with_cf_info).
Proof.
  apply (color_format_first_cf with_cf with_cf_block with_cf_info).
  - vm_compute. reflexivity.
  - eexists _, _. split; [vm_compute; reflexivity|]. split; vm_compute; reflexivity.
  - apply occurs_field, re_search_is_Some. vm_compute. by eexists.
Defined.

(** The pieces of [no_cf]. *)
Lemma no_cf_array :
  no_cf = text "const uint8_t " ++
          text "icon_map[] = { 0xff,0xff,0xff,0xff, 0x00,0x00,0x00,0xff, 0xb0 }" ++
          drop 77 no_cf
  ∧ array_decl (text "icon") (text " 0xff,0xff,0xff,0xff, 0x00,0x00,0x00,0xff, 0xb0 ")
      (text "icon_map[] = { 0xff,0xff,0xff,0xff, 0x00,0x00,0x00,0xff, 0xb0 }")
  ∧ ∀ n', (n' < length (text "const uint8_t "))%nat → ¬ array_decl_at no_cf n'.
Proof.
  split; [vm_compute; reflexivity|]. split.
  - exists (text " "), (text " "). split; [vm_compute; reflexivity|].
    repeat split; try done; apply all_in_forallb; vm_compute; reflexivity.
  - assert (∃ m, re_search bitmap_pattern no_cf = Some m ∧ m_start m = 14%nat)
      as (m & Hm & Hst).
    { eexists. split; vm_compute; reflexivity. }
    apply re_search_Some in Hm as (pre' & _ & _ & _ & _ & Hstart & _ & Hfirst).
    intros n' Hlt Hd. apply (Hfirst n').
    + rewrite <- Hstart, Hst. exact Hlt.
    + by apply starts_at_array.
Qed.

Lemma no_cf_desc :
  no_cf = take 79 no_cf ++
          (text "const lv_img_dsc_t icon = {" ++ no_cf_block ++ text "}") ++ text ";"
  ∧ desc_decl (text "icon") no_cf_block
      (text "const lv_img_dsc_t icon = {" ++ no_cf_block ++ text "}")
  ∧ ∀ n', (n' < length (take 79 no_cf))%nat → ¬ desc_decl_at (text "icon") no_cf n'.
Proof.
  split; [vm_compute; reflexivity|]. split.
  - exists (text " "), (text " "). split; [vm_compute; reflexivity|].
    repeat split; try done; apply all_in_forallb; vm_compute; reflexivity.
  - assert (∃ m, re_search (desc_pattern (text "icon")) no_cf = Some m
                 ∧ m_start m = 79%nat) as (m & Hm & Hst).
    { eexists. split; vm_compute; reflexivity. }
    apply re_search_Some in Hm as (pre' & _ & _ & _ & _ & Hstart & _ & Hfirst).
    intros n' Hlt Hd. apply (Hfirst n').
    + rewrite <- Hstart, Hst. exact Hlt.
    + by apply starts_at_desc.
Qed.

Lemma no_cf_fields :
  first_field_value ".w" no_cf_block 140 ∧ first_field_value ".h" no_cf_block 68.
Proof.
  split.
  - destruct (re_search (field_pattern ".w" is_digit) no_cf_block) as [m|] eqn:E;
      [|by vm_compute in E].
    pose proof (search_digits_field _ _ _ E) as H.
    vm_compute in E. injection E as <-. exact H.
  - destruct (re_search (field_pattern ".h" is_digit) no_cf_block) as [m|] eqn:E;
      [|by vm_compute in E].
    pose proof (search_digits_field _ _ _ E) as H.
    vm_compute in E. injection E as <-. exact H.
Qed.

Lemma descriptor_block_first_witness :
  descriptor_block no_cf no_cf_block ↔ no_cf_block = no_cf_block.
Proof.
  destruct no_cf_array as (Ha1 & Ha2 & Ha3). destruct no_cf_desc as (Hd1 & Hd2 & Hd3).
  exact (descriptor_block_first _ _ _ _ _ _ _ _ _ _ Ha1 Ha2 Ha3 Hd1 Hd2 Hd3 no_cf_block).
Defined.

Lemma extract_declared_witness :
  ∃ info, parse_lvgl_c_file no_cf = Ok info ∧
    name info = text "icon" ∧ width info = 140 ∧ height info = 68 ∧
    mapM (λ val, int_ val 16)
      (drop 8 (re_findall hex_pattern
                 (text " 0xff,0xff,0xff,0xff, 0x00,0x00,0x00,0xff, 0xb0 ")))
      = Ok (bitmap_data info).
Proof.
  destruct no_cf_array as (Ha1 & Ha2 & Ha3). destruct no_cf_desc as (Hd1 & Hd2 & Hd3).
  destruct no_cf_fields as (Hw & Hh).
  assert (palette_indices_within_limit no_cf) as Hpal.
  { apply short_text_within_limit, Nat.leb_le. vm_compute. reflexivity. }
  apply (extract_declared _ _ _ _ _ _ _ _ _ _ _ _ Hpal Ha1 Ha2 Ha3 Hd1 Hd2 Hd3 Hw Hh);
    apply short_block_within_limit, Nat.leb_le; vm_compute; reflexivity.
Defined.

(** ** Reading back a byte list *)

Lemma finditer_from_skip (r : regex) (c : ascii) (s : list ascii) (pos n : nat) :
  finditer_from r (c :: s) pos (S n) = finditer_from r s (S pos) n.
Proof. reflexivity. Qed.

Lemma finditer_from_hit (r : regex) (c : ascii) (s : list ascii) (pos n : nat)
    (g : gmap nat (list ascii)) :
  match_at r (c :: s) = Some (n, g) →
  finditer_from r (c :: s) pos 0
  = {| m_start := pos; m_end := (pos + n)%nat; m_groups := g |}
    :: finditer_from r s (S pos) (Nat.pred n).
Proof. intros H. cbn [finditer_from]. rewrite H. reflexivity. Qed.

Lemma finditer_from_miss (r : regex) (c : ascii) (s : list ascii) (pos : nat) :
  match_at r (c :: s) = None →
  finditer_from r (c :: s) pos 0 = finditer_from r s (S pos) 0.
Proof. intros H. cbn [finditer_from]. rewrite H. reflexivity. Qed.

Lemma match_at_hex_literal (h1 h2 : ascii) (s : list ascii) :
  is_hex h1 = true → is_hex h2 = true →
  match_at hex_pattern ("0"%char :: "x"%char :: h1 :: h2 :: s)
  = Some (4%nat, <[1%nat := [h1; h2]]> ∅).
Proof.
  intros H1 H2.
  destruct (match_at hex_pattern ("0"%char :: "x"%char :: h1 :: h2 :: s))
    as [[n g]|] eqn:E.
  - apply match_at_sound in E as (s1 & s2 & Heq & Hm & ->).
    apply matches_hex_pattern in Hm as (h & -> & Hl & Hh & ->).
    destruct h as [|a [|b [|]]]; try done.
    cbn in Heq. injection Heq as <- <- _. done.
  - assert (is_Some (match_at hex_pattern ("0"%char :: "x"%char :: h1 :: h2 :: s)))
      as [x Hx].
    { change ("0"%char :: "x"%char :: h1 :: h2 :: s)
        with ((text "0x" ++ [h1; h2]) ++ s).
      eapply (match_at_complete _ _ _ ∅). unfold hex_pattern.
      assert (length [h1; h2] = 2%nat) by done.
      assert (all_in is_hex [h1; h2]) by (by repeat constructor).
      build_matches. }
    congruence.
Qed.

Lemma match_at_hex_none (c : ascii) (rest : list ascii) :
  c ≠ "0"%char ∨ head rest ≠ Some "x"%char →
  match_at hex_pattern (c :: rest) = None.
Proof.
  intros Hno. destruct (match_at hex_pattern (c :: rest)) as [[n g]|] eqn:E; [|done].
  exfalso. apply match_at_sound in E as (s1 & s2 & Heq & Hm & _).
  apply matches_hex_pattern in Hm as (h & -> & _).
  cbn in Heq. injection Heq as -> ->. destruct Hno as [Hno|Hno]; by apply Hno.
Qed.

Lemma finditer_hex_separator (sep s : list ascii) (pos : nat) :
  separator sep → head s ≠ Some "x"%char →
  finditer_from hex_pattern (sep ++ s) pos 0
  = finditer_from hex_pattern s (pos + length sep) 0.
Proof.
  unfold separator. intros Hsep Hs. revert pos.
  induction sep as [|c sep IH]; intros pos; cbn [app length].
  - by rewrite Nat.add_0_r.
  - cbn [no_0x] in Hsep. apply andb_prop in Hsep as [Hc Hsep].
    rewrite finditer_from_miss.
    + rewrite IH by done. f_equal. lia.
    + apply match_at_hex_none.
      destruct (Ascii.eqb c "0") eqn:Ec; [|left; by apply Ascii.eqb_neq].
      right. destruct sep as [|d sep]; cbn in Hc |- *; [done|].
      intros [= ->]. by rewrite Ascii.eqb_refl in Hc.
Qed.

Lemma hex2_byte (v : Z) :
  0 ≤ v < 256 →
  is_hex (hex_digit (v / 16)) = true ∧ is_hex (hex_digit (v mod 16)) = true ∧
  int_ (hex2 v) 16 = Ok v.
Proof.
  intros Hv.
  assert (forallb (λ u, is_hex (hex_digit (u / 16)) && is_hex (hex_digit (u mod 16))
                        && match int_ (hex2 u) 16 with
                           | Ok w => w =? u
                           | Raise _ => false
                           end) (seqZ 0 256) = true) as Hall
    by (vm_compute; reflexivity).
  rewrite forallb_forall in Hall.
  assert (In v (seqZ 0 256)) as Hin by (apply list_elem_of_In, elem_of_seqZ; lia).
  apply Hall in Hin. apply andb_prop in Hin as [Hh Hi].
  apply andb_prop in Hh as [Hh1 Hh2].
  destruct (int_ (hex2 v) 16) as [w|]; [|done]. apply Z.eqb_eq in Hi as ->. done.
Qed.

(** [re.findall] over a rendered byte list returns the two hex digits of
    every byte, in order. *)
Lemma findall_rendered (items : list (Z * list ascii)) (pos : nat) :
  Forall (λ it, 0 ≤ it.1 < 256 ∧ separator it.2) items →
  (λ m, group m 1) <$> finditer_from hex_pattern (render_items items) pos 0
  = (λ it, hex2 it.1) <$> items.
Proof.
  intros H. revert pos. induction H as [|[v sep] items [Hv Hsep] _ IH]; intros pos.
  - cbn. unfold match_at. cbn. done.
  - unfold render_items. cbn [fmap list_fmap concat fst snd].
    fold (render_items items).
    destruct (hex2_byte v Hv) as (Hh1 & Hh2 & _).
    unfold hex_literal, hex2. cbn [text list_ascii_of_string app].
    rewrite (finditer_from_hit _ _ _ _ _ _ (match_at_hex_literal _ _ _ Hh1 Hh2)).
    cbn [Nat.pred]. rewrite !finditer_from_skip.
    rewrite finditer_hex_separator; [|done|].
    + cbn [fmap list_fmap]. rewrite IH. f_equal.
    + destruct items as [|[v' sep'] items]; [done|].
      unfold render_items, hex_literal. cbn. done.
Qed.

Lemma mapM_hex2 (bs : list Z) :
  Forall (λ v, 0 ≤ v < 256) bs → mapM (λ val, int_ val 16) (hex2 <$> bs) = Ok bs.
Proof.
  induction 1 as [|v bs Hv _ IH]; [done|].
  cbn [fmap list_fmap mapM]. destruct (hex2_byte v Hv) as (_ & _ & ->).
  cbn [rbind]. fold (fmap (M := list) hex2 bs). rewrite IH. done.
Qed.

(** When the body of the first array is a list of two-digit hex literals
    [0xhh], each followed by text that holds no [0x] (commas, white space,
    the palette comments), a successful extraction returns as packed stream
    exactly the bytes written, in order, from the ninth on. *)
Theorem extract_rendered_bytes
    (content pre ident lead mid post : list ascii)
    (items : list (Z * list ascii)) (info : bitmap_info) :
  content = pre ++ mid ++ post →
  array_decl ident (lead ++ render_items items) mid →
  (∀ n', (n' < length pre)%nat → ¬ array_decl_at content n') →
  separator lead →
  Forall (λ it, 0 ≤ it.1 < 256 ∧ separator it.2) items →
  parse_lvgl_c_file content = Ok info →
  bitmap_data info = drop 8 (fst <$> items).
Proof.
  intros Hc Hdecl Hfirst Hlead Hitems Hp.
  destruct (search_first_array _ _ _ _ _ _ Hc Hdecl Hfirst) as (bm & Hbm & _ & G2).
  apply parse_inv in Hp as (bm' & dm & wm & hm & Hbm' & _ & _ & _ & _ & Hmap & _).
  rewrite Hbm in Hbm'. injection Hbm' as <-. rewrite G2 in Hmap.
  assert (re_findall hex_pattern (lead ++ render_items items)
          = hex2 <$> (fst <$> items)) as Hfind.
  { unfold re_findall, re_finditer. rewrite finditer_hex_separator; [|done|].
    - rewrite (findall_rendered items _ Hitems). by rewrite <- list_fmap_compose.
    - destruct items as [|[v sep] items]; [done|].
      unfold render_items, hex_literal. cbn. done. }
  rewrite Hfind, <- !fmap_drop in Hmap.
  rewrite mapM_hex2 in Hmap; [injection Hmap as <-; by rewrite fmap_drop|].
  apply Forall_fmap. apply Forall_drop.
  eapply Forall_impl; [exact Hitems|]. by intros it [Hv _].
Qed.

Lemma extract_rendered_bytes_witness :
  bitmap_data {| name := text "layers2"; width := 8; height := 2;
                 color_format := text "LV_IMG_CF_INDEXED_1BIT";
                 colors := <[1 := black]> (<[0 := white]> ∅);
                 bitmap_data := [176; 15] |}
  = drop 8 (fst <$> sample_items).
Proof.
  apply (extract_rendered_bytes sample (text "const uint8_t ") (text "layers2")
           sample_lead
           (text "layers2_map[] = {" ++ sample_lead ++ render_items sample_items ++ text "}")
           (drop 146 sample)).
  - vm_compute. reflexivity.
  - exists (text " "), (text " "). split; [vm_compute; reflexivity|].
    repeat split; try done; apply all_in_forallb; vm_compute; reflexivity.
  - assert (∃ m, re_search bitmap_pattern sample = Some m ∧ m_start m = 14%nat)
      as (m & Hm & Hst).
    { eexists. split; vm_compute; reflexivity. }
    apply re_search_Some in Hm as (pre' & _ & _ & _ & _ & Hstart & _ & Hfirst).
    intros n' Hlt Hd. apply (Hfirst n').
    + rewrite <- Hstart, Hst. exact Hlt.
    + by apply starts_at_array.
  - vm_compute. reflexivity.
  - repeat constructor; cbn; try lia; vm_compute; reflexivity.
  - vm_compute. reflexivity.
Defined.

(** * Further properties of the decoder *)

(** Two images of one size with the same pixels are the same image. *)
Lemma image_ext (w h : Z) (a b : image) :
  wf_image w h a → wf_image w h b →
  (∀ x y, 0 ≤ x < w → 0 ≤ y < h → getpixel a x y = getpixel b x y) →
  a = b.
Proof.
  intros (Hwa & Hha & Hla & Hra) (Hwb & Hhb & Hlb & Hrb) Hpix.
  destruct a as [wa ha ra], b as [wb hb rb]. cbn in *. subst wa ha wb hb. f_equal.
  apply list_eq. intros i.
  destruct (ra !! i) as [rowa|] eqn:Ea.
  - pose proof (lookup_lt_Some _ _ _ Ea) as Hi.
    destruct (rb !! i) as [rowb|] eqn:Eb.
    2:{ apply lookup_ge_None in Eb. lia. }
    f_equal. apply list_eq. intros j.
    assert (length rowa = Z.to_nat w) as Hlra by (eapply Forall_lookup in Hra; eauto).
    assert (length rowb = Z.to_nat w) as Hlrb by (eapply Forall_lookup in Hrb; eauto).
    destruct (decide (j < Z.to_nat w)%nat) as [Hj|Hj].
    + specialize (Hpix (Z.of_nat j) (Z.of_nat i) ltac:(lia) ltac:(lia)).
      unfold getpixel in Hpix. cbn in Hpix.
      rewrite (proj2 (Z.ltb_ge _ _)) in Hpix by lia.
      rewrite (proj2 (Z.ltb_ge _ _)) in Hpix by lia.
      cbn in Hpix. rewrite !Nat2Z.id, Ea, Eb in Hpix. exact Hpix.
    + rewrite !(proj2 (lookup_ge_None _ _)) by lia. done.
  - apply lookup_ge_None in Ea. symmetry. apply lookup_ge_None. lia.
Qed.

(** The sizes [Image.new] takes, and what the decoder does with the
    others. *)
Lemma Image_new_inv (w h : Z) (img : image) :
  Image_new w h = Ok img → 0 ≤ w ≤ max_width ∧ 0 ≤ h ≤ INT_MAX.
Proof.
  unfold Image_new, c_int.
  destruct (Z.ltb_spec w 0); [done|]. destruct (Z.ltb_spec h 0); [done|]. cbn [orb].
  destruct (Z.ltb_spec 9223372036854775807 w); [done|].
  destruct (Z.ltb_spec INT_MAX w); [done|]. cbn [rbind].
  destruct (Z.ltb_spec 9223372036854775807 h); [done|].
  destruct (Z.ltb_spec INT_MAX h); [done|]. cbn [rbind].
  destruct (Z.ltb_spec max_width w); [done|]. lia.
Qed.

Lemma decode_new_raises (info : bitmap_info) (e : exn) :
  Image_new (width info) (height info) = Raise e →
  convert_1bit_indexed_to_png info = Raise e.
Proof. intros H. unfold convert_1bit_indexed_to_png. by rewrite H. Qed.

(** The image is determined by the colors the pixels resolve to. *)
Lemma decode_same_pixels (info1 info2 : bitmap_info) :
  width info1 = width info2 → height info1 = height info2 →
  0 ≤ width info1 → 0 ≤ height info1 →
  (∀ x y, 0 ≤ x < width info1 → 0 ≤ y < height info1 →
     pixel_color info1 x y = pixel_color info2 x y) →
  convert_1bit_indexed_to_png info1 = convert_1bit_indexed_to_png info2.
Proof.
  intros Hw Hh Hw0 Hh0 Hpix.
  destruct (Image_new (width info1) (height info1)) as [img0|e] eqn:Hnew.
  - apply Image_new_inv in Hnew as [Hwr Hhr].
    destruct (decode_spec info1 Hwr Hhr) as (img1 & -> & Hwf1 & Hp1).
    destruct (decode_spec info2) as (img2 & -> & Hwf2 & Hp2); [lia..|].
    f_equal. rewrite <- Hw, <- Hh in Hwf2, Hp2.
    apply (image_ext _ _ _ _ Hwf1 Hwf2). intros x y Hx Hy.
    by rewrite Hp1, Hp2, Hpix.
  - rewrite (decode_new_raises info1 e Hnew).
    rewrite Hw, Hh in Hnew. by rewrite (decode_new_raises info2 e Hnew).
Qed.

Lemma byte_index_lt_full (w h x y : Z) :
  0 ≤ x < w → 0 ≤ y < h → 0 ≤ byte_index w x y < h * bytes_per_row w.
Proof.
  intros Hx Hy. pose proof (div8_lt_stride w x Hx) as Hq.
  unfold byte_index. nia.
Qed.

(** Bytes after the first [height * ceil(width/8)] of the stream are never
    read: appending anything to a stream that long leaves the image as it
    is. *)
Theorem trailing_bytes_ignored (info : bitmap_info) (extra : list Z) :
  0 ≤ width info → 0 ≤ height info →
  height info * ((width info + 7) / 8) ≤ Z.of_nat (length (bitmap_data info)) →
  convert_1bit_indexed_to_png (with_data info (bitmap_data info ++ extra))
  = convert_1bit_indexed_to_png info.
Proof.
  intros Hw Hh Hlen. apply decode_same_pixels; try done.
  intros x y Hx Hy. cbn in Hx, Hy.
  pose proof (byte_index_lt_full _ _ _ _ Hx Hy) as Hi. unfold bytes_per_row in Hi.
  unfold pixel_color, in_bounds, byte_at. cbn [width bitmap_data colors with_data].
  rewrite length_app.
  rewrite !(proj2 (Z.ltb_lt _ _)) by lia.
  rewrite lookup_app_l by lia. done.
Qed.

Lemma trailing_bytes_ignored_witness :
  convert_1bit_indexed_to_png (with_data full_info (bitmap_data full_info ++ [1; 2; 3]))
  = convert_1bit_indexed_to_png full_info.
Proof. apply (trailing_bytes_ignored full_info [1; 2; 3]); vm_compute; congruence. Defined.

(** With two different colors for the indices 0 and 1, a size the imaging
    library takes and streams that hold every row, two streams give the
    same image exactly when they agree on the bit of every pixel: the image
    loses no pixel bit, and the padding bits at the end of a row change
    nothing. *)
Theorem same_image_iff_same_bits (info : bitmap_info) (data2 : list Z) (c0 c1 : color) :
  0 ≤ width info ≤ max_width → 0 ≤ height info ≤ INT_MAX →
  colors info !! 0 = Some c0 → colors info !! 1 = Some c1 → c0 ≠ c1 →
  height info * ((width info + 7) / 8) ≤ Z.of_nat (length (bitmap_data info)) →
  height info * ((width info + 7) / 8) ≤ Z.of_nat (length data2) →
  convert_1bit_indexed_to_png info = convert_1bit_indexed_to_png (with_data info data2)
  ↔ ∀ x y, 0 ≤ x < width info → 0 ≤ y < height info →
      Z.testbit (byte_at info x y) (7 - x mod 8)
      = Z.testbit (byte_at (with_data info data2) x y) (7 - x mod 8).
Proof.
  intros Hw Hh H0 H1 Hne Hl1 Hl2.
  assert (Hpc : ∀ (i : bitmap_info) x y,
            colors i = colors info → width i = width info →
            height info * ((width info + 7) / 8) ≤ Z.of_nat (length (bitmap_data i)) →
            0 ≤ x < width info → 0 ≤ y < height info →
            pixel_color i x y
            = if Z.testbit (byte_at i x y) (7 - x mod 8) then c1 else c0).
  { intros i x y Hc Hwi Hli Hx Hy.
    pose proof (byte_index_lt_full _ _ _ _ Hx Hy) as Hi. unfold bytes_per_row in Hi.
    unfold pixel_color, in_bounds. rewrite Hwi, Hc.
    rewrite (proj2 (Z.ltb_lt _ _)) by lia.
    rewrite bit_value_testbit. unfold dict_get.
    destruct (Z.testbit (byte_at i x y) (7 - x mod 8)); cbn; by rewrite ?H0, ?H1. }
  split.
  - intros Heq x y Hx Hy.
    destruct (decode_spec info Hw Hh) as (img1 & Hr1 & _ & Hp1).
    destruct (decode_spec (with_data info data2) Hw Hh) as (img2 & Hr2 & _ & Hp2).
    rewrite Hr1, Hr2 in Heq. injection Heq as <-.
    specialize (Hp1 x y Hx Hy). specialize (Hp2 x y Hx Hy). rewrite Hp1 in Hp2.
    injection Hp2 as Hp2.
    rewrite (Hpc info x y) in Hp2 by done.
    rewrite (Hpc (with_data info data2) x y) in Hp2 by done.
    destruct (Z.testbit (byte_at info x y) _),
             (Z.testbit (byte_at (with_data info data2) x y) _); congruence.
  - intros Hbits. apply decode_same_pixels; try done; try lia.
    intros x y Hx Hy.
    rewrite (Hpc info x y), (Hpc (with_data info data2) x y) by done.
    by rewrite Hbits.
Qed.

Lemma same_image_iff_same_bits_witness :
  convert_1bit_indexed_to_png full_info
  = convert_1bit_indexed_to_png (with_data full_info [255; 192; 255; 255])
  ↔ ∀ x y, 0 ≤ x < 10 → 0 ≤ y < 2 →
      Z.testbit (byte_at full_info x y) (7 - x mod 8)
      = Z.testbit (byte_at (with_data full_info [255; 192; 255; 255]) x y) (7 - x mod 8).
Proof.
  apply (same_image_iff_same_bits full_info [255; 192; 255; 255] white black);
    vm_compute; intuition congruence.
Defined.

(** The padding bits of the second byte of a row of ten pixels are free:
    [0xFF] and [0xC0] there give the same image. *)
Example padding_bits_free :
  convert_1bit_indexed_to_png full_info
  = convert_1bit_indexed_to_png (with_data full_info [255; 192; 255; 255]).
Proof. vm_compute. reflexivity. Qed.

(** In an image of a size the imaging library takes, changing one byte of
    the stream changes at most the eight pixels packed in it: those of row
    [i / ceil(width/8)] whose column divided by 8 is [i mod ceil(width/8)]. *)
Theorem byte_change_is_local (info : bitmap_info) (i : nat) (v : Z) :
  0 < width info ≤ max_width → 0 ≤ height info ≤ INT_MAX →
  ∃ img img',
    convert_1bit_indexed_to_png info = Ok img ∧
    convert_1bit_indexed_to_png (with_data info (<[i := v]> (bitmap_data info))) = Ok img' ∧
    ∀ x y, 0 ≤ x < width info → 0 ≤ y < height info →
      getpixel img' x y ≠ getpixel img x y →
      y = Z.of_nat i / ((width info + 7) / 8) ∧
      x / 8 = Z.of_nat i mod ((width info + 7) / 8).
Proof.
  intros Hw Hh.
  destruct (decode_spec info) as (img & Hr & _ & Hp); [lia..|].
  destruct (decode_spec (with_data info (<[i := v]> (bitmap_data info))))
    as (img' & Hr' & _ & Hp'); [cbn; lia..|].
  exists img, img'. split; [done|]. split; [done|].
  intros x y Hx Hy Hdiff.
  rewrite (Hp x y Hx Hy), (Hp' x y Hx Hy) in Hdiff.
  pose proof (div8_lt_stride (width info) x Hx) as Hq. unfold bytes_per_row in Hq.
  destruct (decide (byte_index (width info) x y = Z.of_nat i)) as [Hi|Hi].
  - unfold byte_index, bytes_per_row in Hi. split.
    + apply (Z.div_unique _ _ _ (x / 8)); [left; lia|]. lia.
    + apply (Z.mod_unique _ _ y); [left; lia|]. lia.
  - exfalso. apply Hdiff. f_equal.
    unfold pixel_color, in_bounds, byte_at. cbn [width bitmap_data colors with_data].
    rewrite length_insert.
    rewrite list_lookup_insert_ne; [done|].
    intros ->. apply Hi.
    pose proof (byte_index_nonneg (width info) x y). lia.
Qed.

Lemma byte_change_is_local_witness :
  ∃ img img',
    convert_1bit_indexed_to_png full_info = Ok img ∧
    convert_1bit_indexed_to_png (with_data full_info (<[3%nat := 0]> (bitmap_data full_info)))
      = Ok img' ∧
    ∀ x y, 0 ≤ x < 10 → 0 ≤ y < 2 →
      getpixel img' x y ≠ getpixel img x y →
      y = Z.of_nat 3 / ((10 + 7) / 8) ∧ x / 8 = Z.of_nat 3 mod ((10 + 7) / 8).
Proof. apply (byte_change_is_local full_info 3 0); vm_compute; intuition congruence. Defined.

(** The decoder by the size of the descriptor.  A negative width or height
    makes it raise [ValueError], and a width or height of 2^31 or more, when
    neither is negative, [OverflowError], both before any pixel is
    resolved.  For a width up to [max_width] and a height up to [INT_MAX]
    the pixel loop raises nothing; its image has no pixel and is refused by
    [img.save] when the width or the height is zero, and is saved as it is
    when both are positive. *)
Theorem decode_by_size (info : bitmap_info) :
  (width info < 0 ∨ height info < 0 →
     convert_1bit_indexed_to_png info
     = Raise (ValueError "Width and height must be >= 0"))
  ∧ (0 ≤ width info → 0 ≤ height info →
     INT_MAX < width info ∨ INT_MAX < height info →
     ∃ msg, convert_1bit_indexed_to_png info = Raise (OverflowError msg))
  ∧ (0 ≤ width info ≤ max_width → 0 ≤ height info ≤ INT_MAX →
     ∃ img, convert_1bit_indexed_to_png info = Ok img ∧
       wf_image (width info) (height info) img ∧
       (width info = 0 ∨ height info = 0 →
          (∀ x y, getpixel img x y = None) ∧ ∃ e, img_save img = Raise e) ∧
       (0 < width info → 0 < height info → img_save img = Ok img)).
Proof.
  split; [|split].
  - intros Hneg. unfold convert_1bit_indexed_to_png, Image_new.
    destruct Hneg as [Hneg|Hneg].
    + rewrite (proj2 (Z.ltb_lt _ _) Hneg). done.
    + rewrite (proj2 (Z.ltb_lt _ _) Hneg). by rewrite orb_true_r.
  - intros Hw Hh Hbig. unfold convert_1bit_indexed_to_png, Image_new, c_int.
    destruct (Z.ltb_spec (width info) 0); [lia|].
    destruct (Z.ltb_spec (height info) 0); [lia|]. cbn [orb].
    destruct (Z.ltb_spec 9223372036854775807 (width info)); [by eexists|].
    destruct (Z.ltb_spec INT_MAX (width info)); [by eexists|]. cbn [rbind].
    destruct (Z.ltb_spec 9223372036854775807 (height info)); [by eexists|].
    destruct (Z.ltb_spec INT_MAX (height info)); [by eexists|]. lia.
  - intros Hw Hh. destruct (decode_spec info Hw Hh) as (img & Hr & Hwf & _).
    exists img. split; [done|]. split; [done|].
    split; [|by apply img_save_ok].
    destruct Hwf as (Hiw & Hih & Hlen & Hrows).
    intros Hzero. split.
    + intros x y. unfold getpixel.
      destruct ((x <? 0) || (y <? 0)) eqn:E; [done|].
      apply orb_false_elim in E as [Ex Ey]. apply Z.ltb_ge in Ex, Ey.
      destruct (im_rows img !! Z.to_nat y) as [row|] eqn:Er; [|done]. cbn.
      pose proof (lookup_lt_Some _ _ _ Er) as Hy.
      eapply Forall_lookup in Hrows; eauto. cbn in Hrows.
      apply lookup_ge_None. lia.
    + unfold img_save. rewrite Hiw, Hih.
      destruct Hzero as [-> | ->]; [by eexists|].
      rewrite orb_true_r. by eexists.
Qed.

Lemma decode_by_size_witness :
  convert_1bit_indexed_to_png
    {| name := text "negative"; width := -1; height := 3;
       color_format := text "unknown"; colors := ∅; bitmap_data := [] |}
  = Raise (ValueError "Width and height must be >= 0")
  ∧ (∃ msg, convert_1bit_indexed_to_png huge_info = Raise (OverflowError msg))
  ∧ ∃ img, convert_1bit_indexed_to_png
             {| name := text "empty"; width := 0; height := 3;
                color_format := text "unknown"; colors := ∅; bitmap_data := [] |}
           = Ok img ∧
      wf_image 0 3 img ∧
      ((0 = 0 ∨ 3 = 0) →
         (∀ x y, getpixel img x y = None) ∧ ∃ e, img_save img = Raise e) ∧
      (0 < 0 → 0 < 3 → img_save img = Ok img).
Proof.
  split; [|split].
  - apply (proj1 (decode_by_size
                    {| name := text "negative"; width := -1; height := 3;
                       color_format := text "unknown"; colors := ∅;
                       bitmap_data := [] |})).
    left. reflexivity.
  - apply (proj1 (proj2 (decode_by_size huge_info)));
      [vm_compute; congruence | vm_compute; congruence | left; reflexivity].
  - apply (proj2 (proj2 (decode_by_size
                    {| name := text "empty"; width := 0; height := 3;
                       color_format := text "unknown"; colors := ∅;
                       bitmap_data := [] |})));
      vm_compute; intuition congruence.
Defined.

(** * The command line *)

(** ** rfind, basename and splitext *)

Lemma rfind_from_spec (c : ascii) (s : list ascii) (pos last : Z) :
  ((c ∉ s) ∧ rfind_from c s pos last = last) ∨
  (∃ a b, s = a ++ c :: b ∧ (c ∉ b) ∧ rfind_from c s pos last = pos + Z.of_nat (length a)).
Proof.
  revert pos last. induction s as [|x s IH]; intros pos last; cbn.
  - left. split; [apply not_elem_of_nil|done].
  - destruct (IH (pos + 1) (if Ascii.eqb x c then pos else last))
      as [[Hno ->]|(a & b & -> & Hb & ->)].
    + destruct (Ascii.eqb x c) eqn:E.
      * apply Ascii.eqb_eq in E as ->. right. exists [], s. cbn.
        split; [done|]. split; [done|]. lia.
      * apply Ascii.eqb_neq in E. left. split; [|done].
        rewrite not_elem_of_cons. split; [congruence|done].
    + right. exists (x :: a), b. cbn. split; [done|]. split; [done|]. lia.
Qed.

Lemma rfind_spec (c : ascii) (s : list ascii) :
  ((c ∉ s) ∧ rfind c s = -1) ∨
  (∃ a b, s = a ++ c :: b ∧ (c ∉ b) ∧ rfind c s = Z.of_nat (length a)).
Proof.
  unfold rfind. destruct (rfind_from_spec c s 0 (-1)) as [H|(a & b & H1 & H2 & H3)].
  - by left.
  - right. exists a, b. split; [done|]. split; [done|]. lia.
Qed.

(** The last [c] of a text is where its tail without [c] starts. *)
Lemma rfind_last (c : ascii) (a b : list ascii) :
  c ∉ b → rfind c (a ++ c :: b) = Z.of_nat (length a).
Proof.
  intros Hb. destruct (rfind_spec c (a ++ c :: b)) as [[Hno _]|(a' & b' & Heq & Hb' & ->)].
  - exfalso. apply Hno. apply elem_of_app. right. apply list_elem_of_here.
  - f_equal.
    assert (∀ (u v u' v' : list ascii), u ++ c :: v = u' ++ c :: v' → c ∉ v → c ∉ v' →
              (length u ≤ length u')%nat) as Hle.
    { intros u. induction u as [|y u IHu]; intros v u' v' Hq Hv Hv'; [cbn; lia|].
      destruct u' as [|y' u'].
      - cbn in Hq. injection Hq as -> Hq. exfalso. apply Hv'. rewrite <- Hq.
        apply elem_of_app. right. apply list_elem_of_here.
      - cbn in Hq. injection Hq as _ Hq. cbn. apply le_n_S. by eapply IHu. }
    pose proof (Hle _ _ _ _ Heq Hb Hb'). pose proof (Hle _ _ _ _ (eq_sym Heq) Hb' Hb). lia.
Qed.

Lemma rfind_none (c : ascii) (s : list ascii) : c ∉ s → rfind c s = -1.
Proof.
  intros Hno. destruct (rfind_spec c s) as [[_ H]|(a & b & -> & _)]; [done|].
  exfalso. apply Hno. apply elem_of_app. right. apply list_elem_of_here.
Qed.

Lemma basename_spec (p : list ascii) :
  (("/"%char ∉ p) ∧ basename p = p) ∨
  (∃ a b, p = a ++ "/"%char :: b ∧ ("/"%char ∉ b) ∧ basename p = b).
Proof.
  unfold basename, str_from.
  destruct (rfind_spec "/" p) as [[Hno ->]|(a & b & -> & Hb & ->)].
  - left. done.
  - right. exists a, b. split; [done|]. split; [done|].
    replace (Z.to_nat (Z.of_nat (length a) + 1)) with (length a + 1)%nat by lia.
    rewrite <- drop_drop, drop_app_length. done.
Qed.

Lemma splitext_scan_Some (p : list ascii) (dotIndex : Z) (indices : list Z)
    (r : list ascii * list ascii) :
  splitext_scan p dotIndex indices = Some r →
  r = (str_slice p 0 dotIndex, str_from p dotIndex).
Proof.
  induction indices as [|i indices IH]; cbn; [done|].
  destruct (negb _); [by intros [= <-]|done].
Qed.

(** The root [splitext] returns is the path or what precedes one of its
    characters. *)
Lemma splitext_root_prefix (p : list ascii) : ∃ n, fst (splitext p) = take n p.
Proof.
  unfold splitext. destruct (rfind "/" p <? rfind "." p).
  - destruct (splitext_scan _ _ _) as [r|] eqn:E.
    + apply splitext_scan_Some in E as ->. cbn. unfold str_slice. cbn.
      eexists. rewrite drop_0. reflexivity.
    + exists (length p). by rewrite firstn_all.
  - exists (length p). by rewrite firstn_all.
Qed.

(** The path [main] derives holds no directory separator: the image is
    written to the working directory, wherever the input file is. *)
Theorem default_output_in_cwd (input : list ascii) :
  "/"%char ∉ default_output_path input.
Proof.
  unfold default_output_path. cbv zeta.
  destruct (splitext_root_prefix (basename input)) as [n ->].
  intros Hin. apply elem_of_app in Hin as [Hin|Hin].
  - apply (subseteq_take n) in Hin.
    destruct (basename_spec input) as [[Hno Hb]|(a & b & _ & Hno & Hb)];
      rewrite Hb in Hin; done.
  - apply list_elem_of_In in Hin. cbn in Hin. intuition congruence.
Qed.

Lemma basename_after_dir (dir name : list ascii) :
  dir = [] ∨ last dir = Some "/"%char → "/"%char ∉ name →
  basename (dir ++ name) = name.
Proof.
  intros Hdir Hname. unfold basename, str_from. destruct Hdir as [->|Hdir].
  - cbn [app]. by rewrite rfind_none.
  - apply last_Some in Hdir as [d ->]. rewrite <- app_assoc. cbn [app].
    rewrite rfind_last by done.
    replace (Z.to_nat (Z.of_nat (length d) + 1)) with (length d + 1)%nat by lia.
    rewrite <- drop_drop, drop_app_length. done.
Qed.

Lemma str_slice_one (p : list ascii) (j : nat) (ch : ascii) :
  p !! j = Some ch → str_slice p (Z.of_nat j) (Z.of_nat j + 1) = [ch].
Proof.
  intros H. unfold str_slice.
  replace (Z.to_nat (Z.of_nat j + 1 - Z.of_nat j)) with 1%nat by lia.
  rewrite Nat2Z.id, (drop_S _ _ _ H). done.
Qed.

Lemma splitext_scan_hit (p : list ascii) (dotIndex : Z) (indices : list nat)
    (j : nat) (ch : ascii) :
  j ∈ indices → p !! j = Some ch → ch ≠ "."%char →
  splitext_scan p dotIndex (Z.of_nat <$> indices)
  = Some (str_slice p 0 dotIndex, str_from p dotIndex).
Proof.
  intros Hin Hj Hch. induction indices as [|i indices IH]; [by apply elem_of_nil in Hin|].
  cbn. destruct (negb _) eqn:E; [done|].
  apply elem_of_cons in Hin as [->|Hin]; [|by apply IH].
  exfalso. rewrite (str_slice_one _ _ _ Hj) in E. cbn in E.
  rewrite andb_true_r in E. apply negb_false_iff, Ascii.eqb_eq in E. done.
Qed.

Lemma splitext_scan_dots (p : list ascii) (dotIndex : Z) (indices : list nat) :
  Forall (λ i, p !! i = Some "."%char) indices →
  splitext_scan p dotIndex (Z.of_nat <$> indices) = None.
Proof.
  induction 1 as [|i indices Hi _ IH]; [done|].
  cbn. rewrite (str_slice_one _ _ _ Hi). cbn. exact IH.
Qed.

Lemma seqZ_of_nat (n : nat) : seqZ (-1 + 1) (Z.of_nat n - (-1 + 1)) = Z.of_nat <$> seq 0 n.
Proof.
  unfold seqZ. replace (Z.to_nat (Z.of_nat n - (-1 + 1))) with n by lia.
  apply list_fmap_ext. intros _ i _. lia.
Qed.

(** For an input path [dir/stem.ext], the derived output path is
    [stem.png]: the directory is dropped and the last extension replaced,
    provided the stem has a character other than a dot. *)
Theorem default_output_stem (dir stem ext : list ascii) (ch : ascii) :
  dir = [] ∨ last dir = Some "/"%char →
  "/"%char ∉ stem → "/"%char ∉ ext → "."%char ∉ ext →
  ch ∈ stem → ch ≠ "."%char →
  default_output_path (dir ++ stem ++ "."%char :: ext) = stem ++ text ".png".
Proof.
  intros Hdir Hs He Hd Hch Hne. unfold default_output_path. cbv zeta.
  rewrite basename_after_dir; [|done|].
  2:{ rewrite elem_of_app, elem_of_cons. intros [?|[?|?]]; done. }
  f_equal. unfold splitext.
  rewrite rfind_none.
  2:{ rewrite elem_of_app, elem_of_cons. intros [?|[?|?]]; done. }
  rewrite rfind_last by done.
  rewrite (proj2 (Z.ltb_lt _ _)) by lia.
  rewrite seqZ_of_nat.
  apply list_elem_of_lookup in Hch as [j Hj].
  rewrite (splitext_scan_hit _ _ _ j ch).
  - cbn [fst]. unfold str_slice. rewrite drop_0.
    replace (Z.to_nat (Z.of_nat (length stem) - 0)) with (length stem) by lia.
    by rewrite take_app_length.
  - apply elem_of_seq. pose proof (lookup_lt_Some _ _ _ Hj). lia.
  - by apply lookup_app_l_Some.
  - done.
Qed.

Lemma default_output_stem_witness :
  default_output_path (text "icons/" ++ text "layers2" ++ "."%char :: text "c")
  = text "layers2" ++ text ".png".
Proof.
  apply (default_output_stem (text "icons/") (text "layers2") (text "c") "l"%char).
  - right. reflexivity.
  - intros H. apply list_elem_of_In in H. cbn in H. intuition congruence.
  - intros H. apply list_elem_of_In in H. cbn in H. intuition congruence.
  - intros H. apply list_elem_of_In in H. cbn in H. intuition congruence.
  - apply list_elem_of_here.
  - discriminate.
Defined.

(** A file name with no dot, or with nothing but dots before its last dot
    (a hidden file), is kept whole: [.png] is appended to it. *)
Theorem default_output_whole_name (dir dots rest : list ascii) :
  dir = [] ∨ last dir = Some "/"%char →
  Forall (λ ch, ch = "."%char) dots →
  "/"%char ∉ rest → "."%char ∉ rest →
  default_output_path (dir ++ rest) = rest ++ text ".png"
  ∧ default_output_path (dir ++ dots ++ "."%char :: rest)
    = (dots ++ "."%char :: rest) ++ text ".png".
Proof.
  intros Hdir Hdots Hs Hd. unfold default_output_path. cbv zeta. split.
  - rewrite basename_after_dir by done. f_equal. unfold splitext.
    rewrite !rfind_none by done. done.
  - assert ("/"%char ∉ dots ++ "."%char :: rest) as Hno.
    { rewrite elem_of_app, elem_of_cons. intros [Hin|[?|?]]; try done.
      eapply Forall_forall in Hdots; [|exact Hin]. done. }
    rewrite basename_after_dir by done. f_equal. unfold splitext.
    rewrite rfind_none by done. rewrite rfind_last by done.
    rewrite (proj2 (Z.ltb_lt _ _)) by lia.
    rewrite seqZ_of_nat, splitext_scan_dots; [done|].
    apply Forall_forall. intros i Hi. apply elem_of_seq in Hi.
    destruct (dots !! i) as [c|] eqn:Ei.
    2:{ apply lookup_ge_None in Ei. lia. }
    rewrite lookup_app_l by lia. rewrite Ei.
    eapply Forall_lookup in Hdots; [|exact Ei]. by rewrite Hdots.
Qed.

Lemma default_output_whole_name_witness :
  default_output_path (text "home/" ++ text "bashrc") = text "bashrc" ++ text ".png"
  ∧ default_output_path (text "home/" ++ [] ++ "."%char :: text "bashrc")
    = ([] ++ "."%char :: text "bashrc") ++ text ".png".
Proof.
  apply (default_output_whole_name (text "home/") [] (text "bashrc")).
  - right. reflexivity.
  - constructor.
  - intros H. apply list_elem_of_In in H. cbn in H. intuition congruence.
  - intros H. apply list_elem_of_In in H. cbn in H. intuition congruence.
Defined.

(** ** main *)

(** Decoding and saving raises for a width or height that is not positive
    or is 2^31 or more. *)
Lemma decode_save_raises (info : bitmap_info) :
  width info ≤ 0 ∨ height info ≤ 0 ∨ INT_MAX < width info ∨ INT_MAX < height info →
  ∃ e, (img ←! convert_1bit_indexed_to_png info; img_save img) = Raise e.
Proof.
  intros Hsize.
  destruct (Image_new (width info) (height info)) as [img0|e] eqn:Hnew.
  - apply Image_new_inv in Hnew as [Hwr Hhr].
    destruct (decode_spec info Hwr Hhr) as (img & -> & (Hiw & Hih & _) & _).
    cbn [rbind]. unfold img_save. rewrite Hiw, Hih.
    assert (max_width ≤ INT_MAX) by (vm_compute; congruence).
    destruct (Z.eqb_spec (width info) 0); [by eexists|].
    destruct (Z.eqb_spec (height info) 0); [by eexists|]. lia.
  - rewrite (decode_new_raises info e Hnew). by eexists.
Qed.

(** The command, case by case; [path] is the [-o] option when it is given
    and not empty, and the path derived from the input otherwise.  When the
    input file can be read, the [Parsing] line printed, the extraction
    succeeds with a positive width and height of a size the imaging library
    takes, and the output path can be written, the command writes the
    decoded image there, and exits with status 0 if it can print its report
    and with status 1 if it cannot.  When the input file is missing, the
    [Parsing] line cannot be printed, the extraction raises, the extracted
    width or height is zero or is 2^31 or more, or the output path cannot be
    written, the command writes nothing and exits with status 1.  It never
    exits with status 0 without having written the image. *)
Theorem main_cli_outcome (fs : list ascii → option (list ascii))
    (can_save : list ascii → bool) (can_print : console_lines → bool)
    (args : arguments) :
  let path := match output args with
              | Some (c :: o) => c :: o
              | _ => default_output_path (input_file args)
              end in
  (∀ content info,
     fs (input_file args) = Some content → can_print Parsing_lines = true →
     parse_lvgl_c_file content = Ok info →
     0 < width info ≤ max_width → 0 < height info ≤ INT_MAX →
     can_save path = true →
     ∃ img, convert_1bit_indexed_to_png info = Ok img ∧
       main_cli fs can_save can_print args
       = {| saved := Some (path, img);
            status := if can_print Converted_lines then 0 else 1 |})
  ∧ (fs (input_file args) = None
     ∨ can_print Parsing_lines = false
     ∨ (∃ content e, fs (input_file args) = Some content
                     ∧ parse_lvgl_c_file content = Raise e)
     ∨ (∃ content info, fs (input_file args) = Some content
                        ∧ parse_lvgl_c_file content = Ok info
                        ∧ (width info = 0 ∨ height info = 0
                           ∨ INT_MAX < width info ∨ INT_MAX < height info))
     ∨ can_save path = false →
     main_cli fs can_save can_print args = {| saved := None; status := 1 |})
  ∧ (status (main_cli fs can_save can_print args) = 0 →
     ∃ img, saved (main_cli fs can_save can_print args) = Some (path, img)).
Proof.
  cbv zeta. unfold main_cli. split; [|split].
  - intros content info Hfs Hprint Hp Hw Hh Hsave.
    destruct (decode_spec info) as (img & Hrun & Hwf & _); [lia..|].
    exists img. split; [done|]. rewrite Hfs, Hprint, Hp, Hrun. cbn [negb rbind].
    rewrite (img_save_ok _ _ _ Hwf) by lia. by rewrite Hsave.
  - intros Hfail. destruct (fs (input_file args)) as [content|] eqn:Hfs; [|done].
    destruct (can_print Parsing_lines) eqn:Hprint; [|done]. cbn [negb].
    destruct (parse_lvgl_c_file content) as [info|e] eqn:Hp; [|done].
    destruct Hfail as [?|[?|[(c' & e & Hc & He)|[(c' & info' & Hc & Hi & Hsize)|Hsave]]]];
      [done|done| | |].
    + injection Hc as <-. congruence.
    + injection Hc as <-. rewrite Hp in Hi. injection Hi as <-.
      destruct (decode_save_raises info) as [e ->]; [lia|done].
    + destruct (_ ←! convert_1bit_indexed_to_png info; _); [|done]. by rewrite Hsave.
  - destruct (fs (input_file args)) as [content|]; [|done].
    destruct (negb (can_print Parsing_lines)); [done|].
    destruct (parse_lvgl_c_file content) as [info|e]; [|done].
    destruct (_ ←! convert_1bit_indexed_to_png info; _) as [img|]; [|done].
    destruct (can_save _); [|done]. intros _. by exists img.
Qed.

Lemma main_cli_outcome_witness :
  ∃ img, convert_1bit_indexed_to_png tiny_info = Ok img ∧
    main_cli (λ p, if str_eqb p (text "icons/tiny.c") then Some tiny else None)
             (λ _, true) (λ _, true)
             {| input_file := text "icons/tiny.c"; output := Some [] |}
    = {| saved := Some (text "tiny.png", img); status := 0 |}.
Proof.
  apply (proj1 (main_cli_outcome
                  (λ p, if str_eqb p (text "icons/tiny.c") then Some tiny else None)
                  (λ _, true) (λ _, true)
                  {| input_file := text "icons/tiny.c"; output := Some [] |})
           tiny tiny_info).
  - reflexivity.
  - reflexivity.
  - vm_compute. reflexivity.
  - vm_compute. intuition congruence.
  - vm_compute. intuition congruence.
  - reflexivity.
Defined.
